(** * Blackbird cipher: the birdsong codec of [src/components/BirdsongCodec.tsx]

    A shallow embedding of the DSP core (mel band table, frame analyser,
    encoder, decoder) and the properties stated about it.

    Numbers.  JavaScript numbers and [Float32Array] cells are read as real
    numbers ([R]): rounding, NaN and infinities are idealised away, so a
    property stated "up to floating error" is stated exactly here.  Lengths,
    loop counters and array indices are [nat]; quantities that the source
    lets run negative (the frame count, spectral bin numbers) are [Z].

    Effects.  [Math.random()] is a stream [rand : nat -> R] read in call
    order.  The [await]s of the workers only yield to the browser between
    iterations, they touch no codec state and are left out.  A thrown
    exception is a value of [CodecError] in the [result] type. *)

From Stdlib Require Import Reals.Reals Lra Lia ZArith List Bool.
From Stdlib Require Import Sorting.Sorted Sorting.Permutation.
Import ListNotations.
Open Scope R_scope.

(** ** Constants

    The module [../constants] is imported by the codec and is not part of the
    sources at hand, so its values are a parameter of every definition. *)

(* The sample rate and the three sizes are whole numbers; [SAMPLE_RATE] is
   only used in arithmetic, the sizes also count array cells and loop turns. *)
Record Constants : Type := mkConstants {
  SAMPLE_RATE : Z;
  FFT_SIZE : nat;
  HOP_SIZE : nat;
  NUM_BANDS : nat;
  SPEECH_MAX_FREQ : R;
  BIRD_DATA_START_FREQ : R;
  BIRD_DATA_STEP : R;
  PITCH_MULTIPLIER : R
}.

(** [src/types.ts]: [FrameAnalysis] and [DecodedFrame] have the same shape. *)
Record FrameAnalysis : Type := mkFrame {
  bandEnergies : list R;
  pitch : R;
  amplitude : R
}.

Definition DecodedFrame : Type := FrameAnalysis.

Record MelBand : Type := mkBand {
  start : R;
  end_ : R;
  center : R
}.

(** ** Errors *)

Inductive CodecError : Type :=
| AudioTooShort      (* throw new Error("Audio too short") *)
| UndefinedAccess.   (* a TypeError: property read on [undefined] *)

Inductive result (A : Type) : Type :=
| Ok (a : A)
| Err (e : CodecError).

Arguments Ok {A} a.
Arguments Err {A} e.

Definition bind {A B : Type} (m : result A) (k : A -> result B) : result B :=
  match m with
  | Ok a => k a
  | Err e => Err e
  end.

Notation "x <- m ;; k" := (bind m (fun x => k))
  (at level 61, m at next level, right associativity).

(** [xs[i]] on an array of objects: [undefined] out of range, and the
    property read that follows throws. *)
Definition fetch {A : Type} (xs : list A) (i : nat) : result A :=
  match nth_error xs i with
  | Some a => Ok a
  | None => Err UndefinedAccess
  end.

(** ** Arrays *)

(** [xs[i] = x] on a typed array: a write out of range is dropped. *)
Fixpoint store {A : Type} (xs : list A) (i : nat) (x : A) : list A :=
  match xs, i with
  | [], _ => []
  | _ :: t, O => x :: t
  | h :: t, S j => h :: store t j x
  end.

(** [xs.slice(a, b)] for [0 <= a <= b]. *)
Definition slice {A : Type} (xs : list A) (a b : nat) : list A :=
  firstn (b - a) (skipn a xs).

(** [xs[k]] for a possibly negative or too large [k]: [None] is [undefined]. *)
Definition atZ (xs : list R) (k : Z) : option R :=
  if (k <? 0)%Z then None else nth_error xs (Z.to_nat k).

(** The values of [k] in [for (k = lo; k < hi; k++)]. *)
Definition zrange (lo hi : Z) : list Z :=
  map (fun j => (lo + Z.of_nat j)%Z) (seq 0 (Z.to_nat (hi - lo))).

(** The values of [i] in [for (i = 0; i < n; i += 2)]. *)
Definition evens_below (n : nat) : list nat :=
  filter Nat.even (seq 0 n).

(** ** Static DSP helpers *)

Definition log10 (x : R) : R := ln x / ln 10.

Definition hzToMel (hz : R) : R := 2595 * log10 (1 + hz / 700).

Definition melToHz (mel : R) : R := 700 * (Rpower 10 (mel / 2595) - 1).

Section Model.

Variable c : Constants.

Definition getMelBands : list MelBand :=
  let minMel := hzToMel 100 in
  let maxMel := hzToMel (SPEECH_MAX_FREQ c) in
  let step := (maxMel - minMel) / INR (NUM_BANDS c) in
  map (fun i : nat =>
         let startHz := melToHz (minMel + INR i * step) in
         let endHz := melToHz (minMel + (INR i + 1) * step) in
         mkBand startHz endHz (melToHz (minMel + (INR i + 0.5) * step)))
      (seq 0 (NUM_BANDS c)).

Definition MEL_BANDS : list MelBand := getMelBands.

(** ** Frame analyser *)

(** The inner loop of [extractPitch]: [buffer.length - period] is negative
    when the period exceeds the buffer and the loop then does not run, which
    the truncated subtraction of [nat] gives as well. *)
Definition correlationAt (buffer : list R) (period : nat) : R :=
  fold_left
    (fun correlation i => correlation + nth i buffer 0 * nth (i + period) buffer 0)
    (evens_below (length buffer - period)) 0.

(** One turn of the period loop on [(bestCorrelation, bestPeriod)]. *)
Definition pitchStep (buffer : list R) (best : R * nat) (period : nat) : R * nat :=
  let correlation := correlationAt buffer period in
  if Rgt_dec correlation (fst best) then (correlation, period) else best.

Definition minPeriod (sampleRate : Z) : nat := Z.to_nat (sampleRate / 800).
Definition maxPeriod (sampleRate : Z) : nat := Z.to_nat (sampleRate / 70).

(** The values of [period] in [for (period = minPeriod; period < maxPeriod; period++)]. *)
Definition periods (sampleRate : Z) : list nat :=
  seq (minPeriod sampleRate) (maxPeriod sampleRate - minPeriod sampleRate).

Definition bestOf (buffer : list R) (sampleRate : Z) : R * nat :=
  fold_left (pitchStep buffer) (periods sampleRate) (0, 0%nat).

Definition rmsOf (buffer : list R) : R :=
  sqrt (fold_left (fun s v => s + v * v) buffer 0 / INR (length buffer)).

Definition extractPitch (buffer : list R) (sampleRate : Z) : R :=
  let bestPeriod := snd (bestOf buffer sampleRate) in
  let rms := rmsOf buffer in
  if Rlt_dec rms 0.01 then 0
  else if (0 <? bestPeriod)%nat then IZR sampleRate / INR bestPeriod else 0.

Definition hann (i : nat) : R :=
  0.5 * (1 - cos (2 * PI * INR i / (INR (FFT_SIZE c) - 1))).

(** One turn of the inner DFT loop on [(r, i_val)]. *)
Definition dftStep (windowed : list R) (angleFactor : R) (acc : R * R) (n : nat) : R * R :=
  let x := nth n windowed 0 in
  if Rgt_dec (Rabs x) 1e-6 then
    let angle := angleFactor * INR n in
    (fst acc + x * cos angle, snd acc + x * sin angle)
  else acc.

Definition computeMagnitudeSpectrum (samples : list R) : list R :=
  let fftSize := FFT_SIZE c in
  let halfSize := (fftSize / 2)%nat in
  let windowed :=
    map (fun i => (if (i <? length samples)%nat then nth i samples 0 else 0) * hann i)
        (seq 0 fftSize) in
  map (fun k : nat =>
         let angleFactor := -2 * PI * INR k / INR fftSize in
         let acc := fold_left (dftStep windowed angleFactor) (evens_below fftSize) (0, 0) in
         sqrt (fst acc * fst acc + snd acc * snd acc))
      (seq 0 halfSize).

Definition binSize : R := IZR (SAMPLE_RATE c) / INR (FFT_SIZE c).

(** The peak search of one mel band; [magnitudes[k] > sum] is false when
    [magnitudes[k]] is [undefined]. *)
Definition bandPeak (magnitudes : list R) (band : MelBand) : R :=
  let startBin := Zfloor (start band / binSize) in
  let endBin := Zfloor (end_ band / binSize) in
  fold_left
    (fun sum k =>
       match atZ magnitudes k with
       | Some m => if Rgt_dec m sum then m else sum
       | None => sum
       end)
    (zrange startBin (endBin + 1)) 0.

Definition analyzeSpeechFrame (samples : list R) : FrameAnalysis :=
  let magnitudes := computeMagnitudeSpectrum samples in
  let bandEnergies := map (bandPeak magnitudes) MEL_BANDS in
  let sumSq := fold_left (fun s v => s + v * v) samples 0 in
  mkFrame bandEnergies
          (extractPitch samples (SAMPLE_RATE c))
          (sqrt (sumSq / INR (length samples))).

(** ** Peak normalisation

    The closing block of both workers: [maxVal] is the peak absolute value,
    and the gain [target / maxVal] is computed only behind [maxVal > 0]. *)

Definition peakAbs (outputData : list R) : R :=
  fold_left (fun maxVal x => Rmax maxVal (Rabs x)) outputData 0.

Definition normGain (target : R) (outputData : list R) : option R :=
  let maxVal := peakAbs outputData in
  if Rgt_dec maxVal 0 then Some (target / maxVal) else None.

Definition normalizePeak (target : R) (outputData : list R) : list R :=
  match normGain target outputData with
  | Some gain => map (fun x => x * gain) outputData
  | None => outputData
  end.

(** ** Encoder *)

(** [Math.floor((inputData.length - FFT_SIZE) / HOP_SIZE)], for a positive
    [HOP_SIZE]: the division of [Z] rounds down, also below zero. *)
Definition numFramesOf (len : nat) : Z :=
  (Z.of_nat len - Z.of_nat (FFT_SIZE c)) / Z.of_nat (HOP_SIZE c).

Definition analyzeFrames (inputData : list R) (numFrames : Z) : list FrameAnalysis :=
  map (fun f : nat =>
         let start := (f * HOP_SIZE c)%nat in
         analyzeSpeechFrame (slice inputData start (start + FFT_SIZE c)))
      (seq 0 (Z.to_nat numFrames)).

Record EncState : Type := mkEnc {
  phaseMain : R;
  phaseData : list R;
  encOut : list R
}.

(** One turn of the band loop on [(phaseData, dataSignal)]. *)
Definition dataStep (frame next : FrameAnalysis) (pos : R)
  (acc : list R * R) (b : nat) : list R * R :=
  let bandE := nth b (bandEnergies frame) 0 * (1 - pos)
               + nth b (bandEnergies next) 0 * pos in
  let carrierFreq := BIRD_DATA_START_FREQ c + INR b * BIRD_DATA_STEP c in
  let phases :=
    store (fst acc) b (nth b (fst acc) 0 + 2 * PI * carrierFreq / IZR (SAMPLE_RATE c)) in
  (phases, snd acc + sin (nth b phases 0) * bandE).

(** The body of the sample loop after the two frames have been read. *)
Definition encodeSample (frame next : FrameAnalysis) (i : nat) (st : EncState) : EncState :=
  let pos := INR (i mod HOP_SIZE c) / INR (HOP_SIZE c) in
  let pitch := pitch frame * (1 - pos) + pitch next * pos in
  let amp := amplitude frame * (1 - pos) + amplitude next * pos in
  let voiced := Rgt_dec pitch 50 in
  let phaseMain' :=
    if voiced
    then phaseMain st + 2 * PI * (pitch * PITCH_MULTIPLIER c) / IZR (SAMPLE_RATE c)
    else phaseMain st in
  let carrier := if voiced then 0 + sin phaseMain' * 0.8 else 0 in
  let data := fold_left (dataStep frame next pos) (seq 0 (NUM_BANDS c)) (phaseData st, 0) in
  let sample := (carrier + snd data * 0.15) * amp in
  mkEnc phaseMain' (fst data) (store (encOut st) i sample).

(** The sample loop; [Ok st] at the [break]. *)
Fixpoint encodeLoop (frames : list FrameAnalysis) (numFrames : Z)
  (indices : list nat) (st : EncState) : result EncState :=
  match indices with
  | [] => Ok st
  | i :: rest =>
      let frameIndex := (i / HOP_SIZE c)%nat in
      if (numFrames - 1 <=? Z.of_nat frameIndex)%Z then Ok st
      else
        frame <- fetch frames frameIndex ;;
        next <- fetch frames (frameIndex + 1) ;;
        encodeLoop frames numFrames rest (encodeSample frame next i st)
  end.

(** [encodeTobirdsong] up to, and without, the normalisation. *)
Definition encodeSynth (rand : nat -> R) (inputData : list R) : result (list R) :=
  let numFrames := numFramesOf (length inputData) in
  if (numFrames <=? 0)%Z then Err AudioTooShort
  else
    let outputLength := length inputData in
    let outputData := repeat 0 outputLength in
    let frames := analyzeFrames inputData numFrames in
    let phases := map (fun i => rand i * 2 * PI) (seq 0 (NUM_BANDS c)) in
    st <- encodeLoop frames numFrames (seq 0 outputLength) (mkEnc 0 phases outputData) ;;
    Ok (encOut st).

Definition encodeTobirdsong (rand : nat -> R) (inputData : list R) : result (list R) :=
  outputData <- encodeSynth rand inputData ;;
  Ok (normalizePeak 0.95 outputData).

(** ** Decoder: analysis pass *)

Definition magAt (magnitudes : list R) (k : Z) : R :=
  match atZ magnitudes k with
  | Some m => m
  | None => 0
  end.

(** One turn of the carrier search on [(maxMag, peakBin)]. *)
Definition peakStep (magnitudes : list R) (acc : R * Z) (k : Z) : R * Z :=
  match atZ magnitudes k with
  | Some m => if Rgt_dec m (fst acc) then (m, k) else acc
  | None => acc
  end.

Definition carrierPeak (magnitudes : list R) : R * Z :=
  let minBin := Zfloor (600 / binSize) in
  let limitBin := Zfloor (5000 / binSize) in
  fold_left (peakStep magnitudes) (zrange minBin limitBin) (0, 0%Z).

(** The quadratic interpolation of the peak bin. *)
Definition refineBin (magnitudes : list R) (peakBin : Z) : R :=
  if ((0 <? peakBin) && (peakBin <? Z.of_nat (length magnitudes) - 1))%Z then
    let alpha := magAt magnitudes (peakBin - 1) in
    let beta := magAt magnitudes peakBin in
    let gamma := magAt magnitudes (peakBin + 1) in
    IZR peakBin + 0.5 * (alpha - gamma) / (alpha - 2 * beta + gamma)
  else IZR peakBin.

(** The raw pitch estimate of one frame. *)
Definition carrierPitch (magnitudes : list R) : R :=
  let maxMag := fst (carrierPeak magnitudes) in
  let peakBin := snd (carrierPeak magnitudes) in
  if Rgt_dec maxMag 0.05 then
    let refinedBin := refineBin magnitudes peakBin in
    let birdFreq := refinedBin * binSize in
    birdFreq / PITCH_MULTIPLIER c
  else 0.

(** [[...pitchBuf].sort((a, b) => a - b)]: ascending order. *)
Fixpoint insertAsc (x : R) (l : list R) : list R :=
  match l with
  | [] => [x]
  | h :: t => if Rle_dec x h then x :: l else h :: insertAsc x t
  end.

Definition sortAsc (l : list R) : list R := fold_right insertAsc [] l.

Definition recoverBand (magnitudes : list R) (b : nat) : R :=
  let targetFreq := BIRD_DATA_START_FREQ c + INR b * BIRD_DATA_STEP c in
  let centerBin := Zfloor (targetFreq / binSize) in
  let width := 2%Z in
  let bandMax :=
    fold_left
      (fun bandMax k =>
         if ((0 <=? k) && (k <? Z.of_nat (length magnitudes)))%Z
         then Rmax bandMax (magAt magnitudes k) else bandMax)
      (zrange (centerBin - width) (centerBin + width + 1)) 0 in
  let eq := 1.0 + (INR b / INR (NUM_BANDS c)) * 2.0 in
  bandMax * 80.0 * eq.

Definition chunkAt (inputData : list R) (f : nat) : list R :=
  let start := (f * HOP_SIZE c)%nat in
  slice inputData start (start + FFT_SIZE c).

(** One turn of the frame loop on [(pitchBuf, frames)]. *)
Definition decodeFrameStep (inputData : list R)
  (acc : list R * list DecodedFrame) (f : nat) : list R * list DecodedFrame :=
  let magnitudes := computeMagnitudeSpectrum (chunkAt inputData f) in
  let maxMag := fst (carrierPeak magnitudes) in
  let pitch := carrierPitch magnitudes in
  let pitchBuf := tl (fst acc ++ [pitch]) in
  let sorted := sortAsc pitchBuf in
  let smoothedPitch := nth 2 sorted 0 in
  let energies := map (recoverBand magnitudes) (seq 0 (NUM_BANDS c)) in
  (pitchBuf, snd acc ++ [mkFrame energies smoothedPitch maxMag]).

Definition decodeAnalysis (inputData : list R) (numFrames : Z) : list DecodedFrame :=
  snd (fold_left (decodeFrameStep inputData) (seq 0 (Z.to_nat numFrames))
                 ([0; 0; 0; 0; 0], [])).

(** ** Decoder: resynthesis pass *)

Record DecState : Type := mkDec {
  harmonicPhases : list R;
  noisePhase : R;
  randCalls : nat;
  decOut : list R
}.

(** The amplitude of the harmonic at [freq], read off the mel envelope. *)
Definition harmonicAmp (frame next : DecodedFrame) (pos freq : R) : R :=
  let mel := hzToMel freq in
  let minMel := hzToMel 100 in
  let maxMel := hzToMel (SPEECH_MAX_FREQ c) in
  let bandIdx := ((mel - minMel) / (maxMel - minMel)) * INR (NUM_BANDS c) in
  if Rge_dec bandIdx 0 then
    if Rlt_dec bandIdx (INR (NUM_BANDS c) - 1) then
      let b1 := Z.to_nat (Zfloor bandIdx) in
      let b2 := (b1 + 1)%nat in
      let frac := bandIdx - INR b1 in
      let e1 := nth b1 (bandEnergies frame) 0 * (1 - pos)
                + nth b1 (bandEnergies next) 0 * pos in
      let e2 := nth b2 (bandEnergies frame) 0 * (1 - pos)
                + nth b2 (bandEnergies next) 0 * pos in
      e1 * (1 - frac) + e2 * frac
    else 0
  else 0.

(** The harmonic loop on [(harmonicPhases, sample)]; the accumulator is
    returned as it is at the [break]. *)
Fixpoint harmonicLoop (frame next : DecodedFrame) (pos p : R)
  (hs : list nat) (acc : list R * R) : list R * R :=
  match hs with
  | [] => acc
  | h :: rest =>
      let freq := p * INR h in
      if Rgt_dec freq (SPEECH_MAX_FREQ c) then acc
      else
        let advanced := nth h (fst acc) 0 + 2 * PI * freq / IZR (SAMPLE_RATE c) in
        let wrapped := if Rgt_dec advanced (2 * PI) then advanced - 2 * PI else advanced in
        let phases := store (fst acc) h wrapped in
        harmonicLoop frame next pos p rest
          (phases, snd acc + sin (nth h phases 0) * harmonicAmp frame next pos freq)
  end.

(** The noise loop over the even bands; [MEL_BANDS[b].center] is the one
    object read. *)
Fixpoint sibilanceLoop (frame next : DecodedFrame) (pos : R) (i : nat)
  (phase noise : R) (bs : list nat) (sibilance : R) : result R :=
  match bs with
  | [] => Ok sibilance
  | b :: rest =>
      let energy := nth b (bandEnergies frame) 0 * (1 - pos)
                    + nth b (bandEnergies next) 0 * pos in
      band <- fetch MEL_BANDS b ;;
      let f := center band in
      sibilanceLoop frame next pos i phase noise rest
        (sibilance + sin (INR i * f * 0.001 + phase) * energy * noise)
  end.

(** The body of the sample loop after the two frames have been read. *)
Definition decodeSample (rand : nat -> R) (frame next : DecodedFrame)
  (i : nat) (st : DecState) : result DecState :=
  let pos := INR (i mod HOP_SIZE c) / INR (HOP_SIZE c) in
  let p := pitch frame * (1 - pos) + pitch next * pos in
  if Rgt_dec p 60 then
    let voiced := harmonicLoop frame next pos p (seq 1 40) (harmonicPhases st, 0) in
    Ok (mkDec (fst voiced) (noisePhase st) (randCalls st)
              (store (decOut st) i (snd voiced * 0.003)))
  else
    let phase := noisePhase st + 1000 in
    let noise := rand (randCalls st) * 2 - 1 in
    sibilance <- sibilanceLoop frame next pos i phase noise (evens_below (NUM_BANDS c)) 0 ;;
    Ok (mkDec (harmonicPhases st) phase (S (randCalls st))
              (store (decOut st) i ((0 + sibilance * 0.5) * 0.003))).

(** The sample loop; [Ok st] at the [break]. *)
Fixpoint decodeLoop (rand : nat -> R) (frames : list DecodedFrame)
  (indices : list nat) (st : DecState) : result DecState :=
  match indices with
  | [] => Ok st
  | i :: rest =>
      let idx := (i / HOP_SIZE c)%nat in
      if (Z.of_nat (length frames) - 1 <=? Z.of_nat idx)%Z then Ok st
      else
        frame <- fetch frames idx ;;
        next <- fetch frames (idx + 1) ;;
        st' <- decodeSample rand frame next i st ;;
        decodeLoop rand frames rest st'
  end.

(** The resynthesis pass of [decodeFrombirdsong], from the decoded frames. *)
Definition decodeResynth (rand : nat -> R) (frames : list DecodedFrame)
  (outputLength : nat) : result (list R) :=
  st <- decodeLoop rand frames (seq 0 outputLength)
          (mkDec (repeat 0 64) 0 0%nat (repeat 0 outputLength)) ;;
  Ok (decOut st).

(** [decodeFrombirdsong] up to, and without, the normalisation. *)
Definition decodeSynth (rand : nat -> R) (inputData : list R) : result (list R) :=
  let numFrames := numFramesOf (length inputData) in
  if (numFrames <=? 0)%Z then Err AudioTooShort
  else decodeResynth rand (decodeAnalysis inputData numFrames) (length inputData).

Definition decodeFrombirdsong (rand : nat -> R) (inputData : list R) : result (list R) :=
  outputData <- decodeSynth rand inputData ;;
  Ok (normalizePeak 0.85 outputData).

End Model.

(** A sample deployment of the constants, used where a statement is
    evaluated on concrete data: the values of [../constants] are not at
    hand, these are in its order 44.1 kHz, frames of 2048 samples every 512,
    32 bands up to 8 kHz, data carriers from 6 kHz every 200 Hz and a pitch
    multiplier of 6.  No general statement depends on them. *)
Definition sampleConstants : Constants :=
  mkConstants 44100 2048 512 32 8000 6000 200 6.

(** ** Vocabulary of the statements *)

(** The running maximum of the normalisation loop, from [maxVal]. *)
Definition peakFold (maxVal : R) (outputData : list R) : R :=
  fold_left (fun m x => Rmax m (Rabs x)) outputData maxVal.




(** A decoded frame with its amplitude field erased. *)
Definition withoutAmplitude (fr : DecodedFrame) : DecodedFrame :=
  mkFrame (bandEnergies fr) (pitch fr) 0.

(** A window of [len] samples, 1 at indices 0 and [gap] and 0 elsewhere. *)
Definition impulsePair (gap len : nat) : list R :=
  map (fun i => if ((i =? 0) || (i =? gap))%nat then 1 else 0) (seq 0 len).

(** Sample inputs for [sampleConstants]: [FFT_SIZE + 1] samples, and
    [FFT_SIZE + HOP_SIZE] samples (one analysis frame), all equal to 0.5. *)
Definition shortBuffer : list R := repeat 0.5 2049.
Definition oneFrameBuffer : list R := repeat 0.5 2560.

(** A constant stand-in for the stream of [Math.random()]. *)
Definition constantRandom : nat -> R := fun _ => 0.5.

(** A two-frame input for [sampleConstants]: a click at samples 0 and 100. *)
Definition twoFrameClick : list R := impulsePair 100 3072.

(** Values of [Math.random()] for which each data carrier starts its first
    sample at phase [2 * PI]. *)
Definition alignedRandom : nat -> R :=
  fun b => 1 - (6000 + INR b * 200) / 44100.

(** ** The callers of the workers *)

(** A number stored in a [Uint8Array] cell: an integer is taken modulo 256. *)
Definition toUint8 (z : Z) : Z := (z mod 256)%Z.

(** [drawWaveform], up to the call of [drawCanvas]: the 256 bytes of
    [displayData].  [data[i*step]] is [undefined] out of range, the sum is
    then NaN and the cell is set to 0. *)
Definition drawWaveform (data : list R) : list Z :=
  let step := (length data / 256)%nat in
  map (fun i : nat =>
         match nth_error data (i * step) with
         | Some val => toUint8 (Zfloor ((val + 1) * 128))
         | None => 0%Z
         end)
      (seq 0 256).

(** The "auto-process sequence" of the recorder's [onstop] handler: the
    recording is encoded and, when that gave a buffer, the buffer is decoded.
    The decoder goes on in the stream of [Math.random()] where the encoder,
    which drew [NUM_BANDS] values, left it. *)
Definition autoProcess (c : Constants) (rand : nat -> R) (mono : list R)
  : result (list R) :=
  encoded <- encodeTobirdsong c rand mono ;;
  decodeFrombirdsong c (fun n => rand (NUM_BANDS c + n)%nat) encoded.

(** * Properties *)

(** ** Arrays and loops *)

Lemma store_length {A : Type} (xs : list A) (i : nat) (x : A) :
  length (store xs i x) = length xs.
Proof.
  revert i; induction xs as [|h t IH]; intros [|j]; simpl; auto.
Qed.

Lemma fetch_in_range {A : Type} (xs : list A) (i : nat) :
  (i < length xs)%nat -> exists a, fetch xs i = Ok a.
Proof.
  intros Hi. unfold fetch.
  destruct (nth_error xs i) as [a|] eqn:E.
  - now exists a.
  - apply nth_error_None in E. lia.
Qed.

Lemma evens_below_lt (n b : nat) : In b (evens_below n) -> (b < n)%nat.
Proof.
  unfold evens_below. rewrite filter_In, in_seq. lia.
Qed.

Lemma zrange_In (lo hi k : Z) : In k (zrange lo hi) <-> (lo <= k < hi)%Z.
Proof.
  unfold zrange. rewrite in_map_iff. split.
  - intros (j & <- & Hj). apply in_seq in Hj. lia.
  - intros Hk. exists (Z.to_nat (k - lo)). split; [lia|].
    apply in_seq. lia.
Qed.

Section Properties.

Variable c : Constants.

Lemma getMelBands_length : length (getMelBands c) = NUM_BANDS c.
Proof.
  unfold getMelBands. now rewrite length_map, length_seq.
Qed.

Lemma analyzeFrames_length (inputData : list R) (numFrames : Z) :
  length (analyzeFrames c inputData numFrames) = Z.to_nat numFrames.
Proof.
  unfold analyzeFrames. now rewrite length_map, length_seq.
Qed.

Lemma decodeFrames_fold_length (inputData : list R) (fs : list nat)
  (acc : list R * list DecodedFrame) :
  length (snd (fold_left (decodeFrameStep c inputData) fs acc))
  = (length (snd acc) + length fs)%nat.
Proof.
  revert acc; induction fs as [|f fs IH]; intros acc; simpl.
  - lia.
  - rewrite IH. simpl. rewrite length_app. simpl. lia.
Qed.

Lemma decodeAnalysis_length (inputData : list R) (numFrames : Z) :
  length (decodeAnalysis c inputData numFrames) = Z.to_nat numFrames.
Proof.
  unfold decodeAnalysis. rewrite decodeFrames_fold_length, length_seq. reflexivity.
Qed.

Lemma normalizePeak_length (target : R) (outputData : list R) :
  length (normalizePeak target outputData) = length outputData.
Proof.
  unfold normalizePeak. destruct (normGain target outputData); [apply length_map|reflexivity].
Qed.

(** The encoder's sample loop reads only frames that exist and keeps the
    length of the output array. *)
Lemma encodeLoop_total (frames : list FrameAnalysis) (numFrames : Z)
  (indices : list nat) (st : EncState) :
  length frames = Z.to_nat numFrames ->
  exists st', encodeLoop c frames numFrames indices st = Ok st'
              /\ length (encOut st') = length (encOut st).
Proof.
  intros Hlen. revert st.
  induction indices as [|i rest IH]; intros st; cbn [encodeLoop].
  - now exists st.
  - destruct (numFrames - 1 <=? Z.of_nat (i / HOP_SIZE c))%Z eqn:Hbreak.
    + now exists st.
    + apply Z.leb_gt in Hbreak.
      destruct (fetch_in_range frames (i / HOP_SIZE c)) as [frame ->]; [lia|].
      destruct (fetch_in_range frames (i / HOP_SIZE c + 1)) as [next ->]; [lia|].
      cbn [bind].
      destruct (IH (encodeSample c frame next i st)) as (st' & -> & Hout).
      exists st'. split; [reflexivity|].
      rewrite Hout. unfold encodeSample. cbn [encOut]. apply store_length.
Qed.

Lemma sibilanceLoop_total (frame next : DecodedFrame) (pos : R) (i : nat)
  (phase noise : R) (bs : list nat) (sibilance : R) :
  (forall b, In b bs -> (b < NUM_BANDS c)%nat) ->
  exists s, sibilanceLoop c frame next pos i phase noise bs sibilance = Ok s.
Proof.
  revert sibilance; induction bs as [|b rest IH]; intros sibilance Hbs; cbn [sibilanceLoop].
  - now exists sibilance.
  - destruct (fetch_in_range (MEL_BANDS c) b) as [band ->].
    + unfold MEL_BANDS. rewrite getMelBands_length. apply Hbs. now left.
    + cbn [bind]. apply IH. intros b' Hb'. apply Hbs. now right.
Qed.

Lemma decodeSample_total (rand : nat -> R) (frame next : DecodedFrame)
  (i : nat) (st : DecState) :
  exists st', decodeSample c rand frame next i st = Ok st'
              /\ length (decOut st') = length (decOut st).
Proof.
  unfold decodeSample.
  destruct (Rgt_dec _ 60).
  - eexists. split; [reflexivity|]. cbn [decOut]. apply store_length.
  - match goal with
    | |- context [sibilanceLoop c ?f ?n ?p ?i ?ph ?no ?bs ?s] =>
        destruct (sibilanceLoop_total f n p i ph no bs s) as [s' ->]
    end.
    + intros b. apply evens_below_lt.
    + cbn [bind]. eexists. split; [reflexivity|]. cbn [decOut]. apply store_length.
Qed.

Lemma decodeLoop_total (rand : nat -> R) (frames : list DecodedFrame)
  (indices : list nat) (st : DecState) :
  exists st', decodeLoop c rand frames indices st = Ok st'
              /\ length (decOut st') = length (decOut st).
Proof.
  revert st. induction indices as [|i rest IH]; intros st; cbn [decodeLoop].
  - now exists st.
  - destruct (Z.of_nat (length frames) - 1 <=? Z.of_nat (i / HOP_SIZE c))%Z eqn:Hbreak.
    + now exists st.
    + apply Z.leb_gt in Hbreak.
      destruct (fetch_in_range frames (i / HOP_SIZE c)) as [frame ->]; [lia|].
      destruct (fetch_in_range frames (i / HOP_SIZE c + 1)) as [next ->]; [lia|].
      cbn [bind].
      destruct (decodeSample_total rand frame next i st) as (st1 & -> & H1).
      cbn [bind].
      destruct (IH st1) as (st' & -> & Hout).
      exists st'. split; [reflexivity|]. congruence.
Qed.

Lemma encodeSynth_total (rand : nat -> R) (inputData : list R) :
  (0 < numFramesOf c (length inputData))%Z ->
  exists out, encodeSynth c rand inputData = Ok out
              /\ length out = length inputData.
Proof.
  intros Hvalid. unfold encodeSynth.
  destruct (numFramesOf c (length inputData) <=? 0)%Z eqn:E;
    [apply Z.leb_le in E; lia|].
  match goal with
  | |- context [encodeLoop c ?fr ?n ?ixs ?st] =>
      destruct (encodeLoop_total fr n ixs st) as (st' & -> & Hout)
  end.
  - apply analyzeFrames_length.
  - cbn [bind]. exists (encOut st'). split; [reflexivity|].
    rewrite Hout. cbn [encOut]. apply repeat_length.
Qed.

Lemma decodeResynth_total (rand : nat -> R) (frames : list DecodedFrame) (n : nat) :
  exists out, decodeResynth c rand frames n = Ok out /\ length out = n.
Proof.
  unfold decodeResynth.
  match goal with
  | |- context [decodeLoop c rand frames ?ixs ?st] =>
      destruct (decodeLoop_total rand frames ixs st) as (st' & -> & Hout)
  end.
  cbn [bind]. exists (decOut st'). split; [reflexivity|].
  rewrite Hout. cbn [decOut]. apply repeat_length.
Qed.

Lemma decodeSynth_total (rand : nat -> R) (inputData : list R) :
  (0 < numFramesOf c (length inputData))%Z ->
  exists out, decodeSynth c rand inputData = Ok out
              /\ length out = length inputData.
Proof.
  intros Hvalid. unfold decodeSynth.
  destruct (numFramesOf c (length inputData) <=? 0)%Z eqn:E;
    [apply Z.leb_le in E; lia|].
  apply decodeResynth_total.
Qed.

(** ** Length of the output (C1) and the "input too short" error (C2) *)

Lemma encode_total (rand : nat -> R) (inputData : list R) :
  (0 < numFramesOf c (length inputData))%Z ->
  exists s, encodeSynth c rand inputData = Ok s
            /\ encodeTobirdsong c rand inputData = Ok (normalizePeak 0.95 s)
            /\ length (normalizePeak 0.95 s) = length inputData.
Proof.
  intros Hvalid.
  destruct (encodeSynth_total rand inputData Hvalid) as (s & Hs & Hlen).
  exists s. unfold encodeTobirdsong. rewrite Hs. cbn [bind].
  repeat split. now rewrite normalizePeak_length.
Qed.

Lemma decode_total (rand : nat -> R) (inputData : list R) :
  (0 < numFramesOf c (length inputData))%Z ->
  exists s, decodeSynth c rand inputData = Ok s
            /\ decodeFrombirdsong c rand inputData = Ok (normalizePeak 0.85 s)
            /\ length (normalizePeak 0.85 s) = length inputData.
Proof.
  intros Hvalid.
  destruct (decodeSynth_total rand inputData Hvalid) as (s & Hs & Hlen).
  exists s. unfold decodeFrombirdsong. rewrite Hs. cbn [bind].
  repeat split. now rewrite normalizePeak_length.
Qed.


Lemma numFramesOf_nonpositive (len : nat) :
  (0 < HOP_SIZE c)%nat ->
  ((numFramesOf c len <= 0)%Z <-> (len < FFT_SIZE c + HOP_SIZE c)%nat).
Proof.
  intros Hhop. unfold numFramesOf.
  set (a := (Z.of_nat len - Z.of_nat (FFT_SIZE c))%Z).
  set (h := Z.of_nat (HOP_SIZE c)).
  assert (Hh : (0 < h)%Z) by (subst h; lia).
  split.
  - intros Hq.
    assert (Ha : (a < h)%Z).
    { destruct (Z_lt_ge_dec a h) as [|Hge]; [assumption|].
      assert (1 <= a / h)%Z by (apply Z.div_le_lower_bound; lia). lia. }
    subst a h. lia.
  - intros Hlt.
    assert (a / h < 1)%Z by (apply Z.div_lt_upper_bound; subst a h; lia).
    lia.
Qed.

Lemma encodeSynth_too_short (rand : nat -> R) (inputData : list R) :
  (numFramesOf c (length inputData) <= 0)%Z ->
  encodeSynth c rand inputData = Err AudioTooShort.
Proof.
  intros H. unfold encodeSynth. apply Z.leb_le in H. now rewrite H.
Qed.

Lemma decodeSynth_too_short (rand : nat -> R) (inputData : list R) :
  (numFramesOf c (length inputData) <= 0)%Z ->
  decodeSynth c rand inputData = Err AudioTooShort.
Proof.
  intros H. unfold decodeSynth. apply Z.leb_le in H. now rewrite H.
Qed.

(** C1.  For every valid input buffer, one that admits at least one full
    analysis frame ([numFrames >= 1]), [encodeTobirdsong] returns a buffer of
    exactly the length of its input, and so does [decodeFrombirdsong]; on any
    input at all, a buffer that is returned has the length of the input. *)
Theorem encode_decode_preserve_length (rand : nat -> R) (inputData : list R) :
  (0 < numFramesOf c (length inputData))%Z ->
  (exists out, encodeTobirdsong c rand inputData = Ok out
               /\ length out = length inputData)
  /\ (exists out, decodeFrombirdsong c rand inputData = Ok out
                  /\ length out = length inputData)
  /\ (forall rand' inputData' out,
        encodeTobirdsong c rand' inputData' = Ok out ->
        length out = length inputData')
  /\ (forall rand' inputData' out,
        decodeFrombirdsong c rand' inputData' = Ok out ->
        length out = length inputData').
Proof.
  intros Hvalid. split; [|split; [|split]].
  - destruct (encode_total rand inputData Hvalid) as (s & _ & H & Hlen). eauto.
  - destruct (decode_total rand inputData Hvalid) as (s & _ & H & Hlen). eauto.
  - intros rand' inputData' out Hout.
    destruct (Z_le_gt_dec (numFramesOf c (length inputData')) 0) as [Hshort|Hok].
    + unfold encodeTobirdsong in Hout.
      rewrite encodeSynth_too_short in Hout by assumption. discriminate.
    + destruct (encode_total rand' inputData') as (s & _ & H & Hlen); [lia|].
      congruence.
  - intros rand' inputData' out Hout.
    destruct (Z_le_gt_dec (numFramesOf c (length inputData')) 0) as [Hshort|Hok].
    + unfold decodeFrombirdsong in Hout.
      rewrite decodeSynth_too_short in Hout by assumption. discriminate.
    + destruct (decode_total rand' inputData') as (s & _ & H & Hlen); [lia|].
      congruence.
Qed.

(** C2, as the code has it.  With a positive hop, both workers raise "Audio
    too short" exactly when [floor((len - FFT_SIZE) / HOP_SIZE) <= 0], that
    is when [len < FFT_SIZE + HOP_SIZE]; the error carries no output; every
    buffer of at least [FFT_SIZE + HOP_SIZE] samples yields an output and no
    other error is ever raised. *)
Theorem too_short_below_frame_plus_hop (rand : nat -> R) (inputData : list R) :
  (0 < HOP_SIZE c)%nat ->
  (encodeTobirdsong c rand inputData = Err AudioTooShort
   <-> (length inputData < FFT_SIZE c + HOP_SIZE c)%nat)
  /\ (decodeFrombirdsong c rand inputData = Err AudioTooShort
      <-> (length inputData < FFT_SIZE c + HOP_SIZE c)%nat)
  /\ ((FFT_SIZE c + HOP_SIZE c <= length inputData)%nat ->
      (exists out, encodeTobirdsong c rand inputData = Ok out)
      /\ (exists out, decodeFrombirdsong c rand inputData = Ok out))
  /\ (forall e, encodeTobirdsong c rand inputData = Err e -> e = AudioTooShort)
  /\ (forall e, decodeFrombirdsong c rand inputData = Err e -> e = AudioTooShort).
Proof.
  intros Hhop.
  pose proof (numFramesOf_nonpositive (length inputData) Hhop) as Hn.
  destruct (Z_le_gt_dec (numFramesOf c (length inputData)) 0) as [Hshort|Hvalid].
  - assert (He : encodeTobirdsong c rand inputData = Err AudioTooShort).
    { unfold encodeTobirdsong. now rewrite encodeSynth_too_short. }
    assert (Hd : decodeFrombirdsong c rand inputData = Err AudioTooShort).
    { unfold decodeFrombirdsong. now rewrite decodeSynth_too_short. }
    rewrite He, Hd. apply Hn in Hshort.
    repeat split; try tauto; try lia; intros e Hx; congruence.
  - destruct (encode_total rand inputData) as (se & _ & He & _); [lia|].
    destruct (decode_total rand inputData) as (sd & _ & Hd & _); [lia|].
    rewrite He, Hd.
    assert (~ (length inputData < FFT_SIZE c + HOP_SIZE c)%nat) by (rewrite <- Hn; lia).
    repeat split; try discriminate; try tauto; eauto.
Qed.

End Properties.

(** ** Peak normalisation (C3) *)

Lemma peakFold_ge (l : list R) (m : R) : m <= peakFold m l.
Proof.
  unfold peakFold. revert m; induction l as [|x l IH]; intros m; simpl.
  - lra.
  - eapply Rle_trans; [apply Rmax_l|apply IH].
Qed.

Lemma peakFold_bound (l : list R) (m x : R) : In x l -> Rabs x <= peakFold m l.
Proof.
  unfold peakFold. revert m; induction l as [|y l IH]; intros m Hin; simpl.
  - contradiction.
  - destruct Hin as [->|Hin].
    + eapply Rle_trans; [apply Rmax_r|apply (peakFold_ge l)].
    + now apply IH.
Qed.

Lemma peakFold_scale (l : list R) (m g : R) :
  0 <= g -> peakFold (m * g) (map (fun x => x * g) l) = peakFold m l * g.
Proof.
  intros Hg. unfold peakFold. revert m; induction l as [|x l IH]; intros m; simpl.
  - reflexivity.
  - rewrite <- IH. f_equal.
    rewrite Rabs_mult, (Rabs_right g) by lra.
    rewrite (Rmult_comm m g), (Rmult_comm (Rabs x) g), (Rmult_comm (Rmax _ _) g).
    now apply RmaxRmult.
Qed.

Lemma peakAbs_nonneg (l : list R) : 0 <= peakAbs l.
Proof. apply (peakFold_ge l 0). Qed.

Lemma peakAbs_scale (l : list R) (g : R) :
  0 <= g -> peakAbs (map (fun x => x * g) l) = peakAbs l * g.
Proof.
  intros Hg. unfold peakAbs.
  replace 0 with (0 * g) at 1 by lra. now apply peakFold_scale.
Qed.

Lemma peakAbs_zero (l : list R) : peakAbs l = 0 -> Forall (fun x => x = 0) l.
Proof.
  intros H. apply Forall_forall. intros x Hin.
  pose proof (peakFold_bound l 0 x Hin) as Hb.
  change (peakFold 0 l) with (peakAbs l) in Hb.
  destruct (Req_dec x 0) as [|Hx]; [assumption|].
  apply Rabs_pos_lt in Hx. lra.
Qed.

Lemma peakAbs_of_zeros (l : list R) : Forall (fun x => x = 0) l -> peakAbs l = 0.
Proof.
  unfold peakAbs. induction 1 as [|x l Hx _ IH]; simpl.
  - reflexivity.
  - subst x. rewrite Rabs_R0. now rewrite Rmax_left by lra.
Qed.

Lemma zeros_are_repeat (l : list R) :
  Forall (fun x => x = 0) l -> l = repeat 0 (length l).
Proof.
  induction 1 as [|x l Hx _ IH]; simpl; [reflexivity|]. now rewrite Hx, <- IH.
Qed.

Lemma repeat_zeros (n : nat) : Forall (fun x : R => x = 0) (repeat 0 n).
Proof.
  apply Forall_forall. intros x Hx. now apply repeat_spec in Hx.
Qed.

(** The normalised buffer peaks at [target] as soon as the raw buffer has a
    non-zero sample. *)
Lemma normalizePeak_peak (target : R) (s : list R) :
  0 <= target -> 0 < peakAbs s -> peakAbs (normalizePeak target s) = target.
Proof.
  intros Ht Hp. unfold normalizePeak, normGain.
  destruct (Rgt_dec (peakAbs s) 0) as [_|Hn]; [|unfold Rgt in Hn; lra].
  rewrite peakAbs_scale.
  - field. lra.
  - apply Rle_mult_inv_pos; lra.
Qed.

(** Behind [maxVal > 0] nothing is scaled when the raw buffer is all-zero. *)
Lemma normalizePeak_skipped (target : R) (s : list R) :
  peakAbs s = 0 ->
  normGain target s = None /\ normalizePeak target s = s
  /\ Forall (fun x => x = 0) s.
Proof.
  intros Hp. unfold normalizePeak, normGain.
  destruct (Rgt_dec (peakAbs s) 0) as [Hg|_]; [unfold Rgt in Hg; lra|].
  repeat split. now apply peakAbs_zero.
Qed.

Section Silence.

Variable c : Constants.

(** With a single analysis frame the sample loop leaves at its first turn. *)
Lemma encodeLoop_single_frame (frames : list FrameAnalysis) (indices : list nat)
  (st : EncState) :
  encodeLoop c frames 1 indices st = Ok st.
Proof.
  destruct indices as [|i rest]; cbn [encodeLoop]; [reflexivity|].
  replace (1 - 1 <=? Z.of_nat (i / HOP_SIZE c))%Z with true; [reflexivity|].
  symmetry. apply Z.leb_le. lia.
Qed.

Lemma encodeSynth_single_frame (rand : nat -> R) (inputData : list R) :
  numFramesOf c (length inputData) = 1%Z ->
  encodeSynth c rand inputData = Ok (repeat 0 (length inputData)).
Proof.
  intros H1. unfold encodeSynth. rewrite H1. cbn [Z.leb Z.compare].
  now rewrite encodeLoop_single_frame.
Qed.

Lemma encode_single_frame (rand : nat -> R) (inputData : list R) :
  numFramesOf c (length inputData) = 1%Z ->
  encodeTobirdsong c rand inputData = Ok (repeat 0 (length inputData)).
Proof.
  intros H1. unfold encodeTobirdsong. rewrite encodeSynth_single_frame by assumption.
  cbn [bind]. f_equal.
  apply normalizePeak_skipped, peakAbs_of_zeros, repeat_zeros.
Qed.

(** C3, as the code has it.  For an input of valid length, whenever the
    synthesised buffer (before normalisation) has a non-zero sample the peak
    absolute value of the encoder's output is [0.95] and that of the
    decoder's output is [0.85]; when the synthesised buffer is all-zero the
    gain is not computed and the output is that all-zero buffer. *)
Theorem peak_after_normalisation (rand : nat -> R) (inputData : list R) :
  (0 < numFramesOf c (length inputData))%Z ->
  (exists s, encodeSynth c rand inputData = Ok s
     /\ encodeTobirdsong c rand inputData = Ok (normalizePeak 0.95 s)
     /\ (0 < peakAbs s -> peakAbs (normalizePeak 0.95 s) = 0.95)
     /\ (peakAbs s = 0 ->
         normGain 0.95 s = None /\ normalizePeak 0.95 s = s
         /\ Forall (fun x => x = 0) s))
  /\ (exists s, decodeSynth c rand inputData = Ok s
     /\ decodeFrombirdsong c rand inputData = Ok (normalizePeak 0.85 s)
     /\ (0 < peakAbs s -> peakAbs (normalizePeak 0.85 s) = 0.85)
     /\ (peakAbs s = 0 ->
         normGain 0.85 s = None /\ normalizePeak 0.85 s = s
         /\ Forall (fun x => x = 0) s)).
Proof.
  intros Hvalid. split.
  - destruct (encode_total c rand inputData Hvalid) as (s & Hs & He & _).
    exists s. split; [assumption|]. split; [assumption|]. split.
    + intros Hp. apply normalizePeak_peak; lra.
    + apply normalizePeak_skipped.
  - destruct (decode_total c rand inputData Hvalid) as (s & Hs & He & _).
    exists s. split; [assumption|]. split; [assumption|]. split.
    + intros Hp. apply normalizePeak_peak; lra.
    + apply normalizePeak_skipped.
Qed.

(** ** Silence (C4) *)

Lemma sumSq_zeros (l : list R) :
  Forall (fun x => x = 0) l -> fold_left (fun s v => s + v * v) l 0 = 0.
Proof.
  induction 1 as [|x l Hx _ IH]; simpl; [reflexivity|].
  subst x. now replace (0 + 0 * 0) with 0 by lra.
Qed.

Lemma rmsOf_zeros (l : list R) : Forall (fun x => x = 0) l -> rmsOf l = 0.
Proof.
  intros H. unfold rmsOf. rewrite sumSq_zeros by assumption.
  unfold Rdiv. rewrite Rmult_0_l. apply sqrt_0.
Qed.

(** The RMS silence gate. *)
Lemma extractPitch_gate (buffer : list R) (sampleRate : Z) :
  rmsOf buffer < 0.01 -> extractPitch buffer sampleRate = 0.
Proof.
  intros H. unfold extractPitch. now destruct (Rlt_dec (rmsOf buffer) 0.01).
Qed.

Lemma slice_zeros (l : list R) (a b : nat) :
  Forall (fun x => x = 0) l -> Forall (fun x => x = 0) (slice l a b).
Proof.
  intros H. unfold slice. rewrite Forall_forall in *. intros x Hx.
  apply H. rewrite <- (firstn_skipn a l). apply in_or_app. right.
  rewrite <- (firstn_skipn (b - a) (skipn a l)). apply in_or_app. now left.
Qed.

Lemma analyzeSpeechFrame_zeros (samples : list R) :
  Forall (fun x => x = 0) samples ->
  pitch (analyzeSpeechFrame c samples) = 0
  /\ amplitude (analyzeSpeechFrame c samples) = 0.
Proof.
  intros H. unfold analyzeSpeechFrame. cbn [pitch amplitude]. split.
  - apply extractPitch_gate. rewrite rmsOf_zeros by assumption. lra.
  - apply (rmsOf_zeros samples H).
Qed.

Lemma analyzeFrames_zeros (inputData : list R) (numFrames : Z) :
  Forall (fun x => x = 0) inputData ->
  Forall (fun fr => pitch fr = 0 /\ amplitude fr = 0)
         (analyzeFrames c inputData numFrames).
Proof.
  intros H. unfold analyzeFrames. apply Forall_map, Forall_forall.
  intros f _. apply analyzeSpeechFrame_zeros. now apply slice_zeros.
Qed.

Lemma store_zero (l : list R) (i : nat) :
  Forall (fun x => x = 0) l -> Forall (fun x => x = 0) (store l i 0).
Proof.
  intros H. revert i. induction H as [|x l Hx Hl IH]; intros [|j]; simpl; auto.
Qed.

Lemma fetch_In {A : Type} (xs : list A) (i : nat) (a : A) :
  fetch xs i = Ok a -> In a xs.
Proof.
  unfold fetch. destruct (nth_error xs i) eqn:E; [|discriminate].
  intros [= <-]. eapply nth_error_In; eauto.
Qed.

(** Frames of zero amplitude write zeros only. *)
Lemma encodeLoop_zero_amplitude (frames : list FrameAnalysis) (numFrames : Z)
  (indices : list nat) (st st' : EncState) :
  Forall (fun fr => amplitude fr = 0) frames ->
  Forall (fun x => x = 0) (encOut st) ->
  encodeLoop c frames numFrames indices st = Ok st' ->
  Forall (fun x => x = 0) (encOut st').
Proof.
  intros Hfr. revert st.
  induction indices as [|i rest IH]; intros st Hz; cbn [encodeLoop].
  - now intros [= <-].
  - destruct (numFrames - 1 <=? Z.of_nat (i / HOP_SIZE c))%Z; [now intros [= <-]|].
    destruct (fetch frames (i / HOP_SIZE c)) as [frame|] eqn:Ef; [|discriminate].
    destruct (fetch frames (i / HOP_SIZE c + 1)) as [next|] eqn:En; [|discriminate].
    cbn [bind]. apply IH.
    rewrite Forall_forall in Hfr.
    unfold encodeSample. cbn [encOut].
    rewrite (Hfr frame (fetch_In _ _ _ Ef)), (Hfr next (fetch_In _ _ _ En)).
    match goal with
    | |- Forall _ (store _ _ ?v) => replace v with 0 by lra
    end.
    now apply store_zero.
Qed.

(** Every analysed window lies inside the input and has [FFT_SIZE] samples. *)
Lemma analysis_window_length (inputData : list R) (f : nat) :
  (Z.of_nat f < numFramesOf c (length inputData))%Z ->
  length (chunkAt c inputData f) = FFT_SIZE c.
Proof.
  unfold numFramesOf, chunkAt, slice. intros Hf.
  rewrite length_firstn, length_skipn.
  destruct (HOP_SIZE c) as [|h] eqn:Hh.
  - change (Z.of_nat 0) with 0%Z in Hf. rewrite Z.div_0_r in Hf. lia.
  - rewrite <- Hh in *.
    set (a := (Z.of_nat (length inputData) - Z.of_nat (FFT_SIZE c))%Z) in *.
    assert (Hm : (Z.of_nat (HOP_SIZE c) * (a / Z.of_nat (HOP_SIZE c)) <= a)%Z)
      by (apply Z.mul_div_le; lia).
    assert (Hb : (Z.of_nat (HOP_SIZE c) * (Z.of_nat f + 1) <= a)%Z) by nia.
    subst a. nia.
Qed.

(** C4.  For every all-zero input buffer of valid length the encoder returns
    the all-zero buffer; the two divisions by a computed value are safe:
    the gain [0.95 / maxVal] is never computed, and the RMS divides by the
    window length [FFT_SIZE]; every analysed frame has pitch 0, because the
    RMS gate of [extractPitch] returns 0 whenever the window's RMS is below
    [0.01]. *)
Theorem silence_encodes_to_silence (rand : nat -> R) (n : nat) :
  (0 < numFramesOf c n)%Z ->
  encodeTobirdsong c rand (repeat 0 n) = Ok (repeat 0 n)
  /\ encodeSynth c rand (repeat 0 n) = Ok (repeat 0 n)
  /\ normGain 0.95 (repeat 0 n) = None
  /\ Forall (fun fr => pitch fr = 0) (analyzeFrames c (repeat 0 n) (numFramesOf c n))
  /\ Forall (fun f => length (chunkAt c (repeat 0 n) f) = FFT_SIZE c)
            (seq 0 (Z.to_nat (numFramesOf c n)))
  /\ (forall buffer sampleRate,
        rmsOf buffer < 0.01 -> extractPitch buffer sampleRate = 0).
Proof.
  intros Hvalid.
  pose proof (repeat_zeros n) as Hz.
  pose proof (analyzeFrames_zeros (repeat 0 n) (numFramesOf c n) Hz) as Hfr.
  assert (Hs : encodeSynth c rand (repeat 0 n) = Ok (repeat 0 n)).
  { destruct (encodeSynth_total c rand (repeat 0 n)) as (s & Hs & Hlen);
      [now rewrite repeat_length|].
    rewrite Hs. f_equal. rewrite repeat_length in Hlen. rewrite <- Hlen.
    apply zeros_are_repeat.
    revert Hs. unfold encodeSynth. rewrite repeat_length.
    destruct (numFramesOf c n <=? 0)%Z; [discriminate|].
    match goal with
    | |- context [encodeLoop c ?fr ?k ?ixs ?st] =>
        destruct (encodeLoop c fr k ixs st) as [st'|] eqn:El; [|discriminate]
    end.
    cbn [bind]. intros [= <-].
    eapply encodeLoop_zero_amplitude; [| |exact El].
    - eapply Forall_impl; [|exact Hfr]. now intros fr [_ Ha].
    - cbn [encOut]. apply repeat_zeros. }
  assert (Hg : normGain 0.95 (repeat 0 n) = None
               /\ normalizePeak 0.95 (repeat 0 n) = repeat 0 n
               /\ Forall (fun x => x = 0) (repeat 0 n))
    by (apply normalizePeak_skipped, peakAbs_of_zeros, Hz).
  repeat split.
  - unfold encodeTobirdsong. rewrite Hs. cbn [bind]. f_equal. apply Hg.
  - exact Hs.
  - apply Hg.
  - eapply Forall_impl; [|exact Hfr]. now intros fr [Hp _].
  - apply Forall_forall. intros f Hf. apply in_seq in Hf.
    apply analysis_window_length. rewrite repeat_length. lia.
  - apply extractPitch_gate.
Qed.

End Silence.

(** ** The mel band table (C5) *)

Lemma ln10_pos : 0 < ln 10.
Proof. rewrite <- ln_1. apply ln_increasing; lra. Qed.

Lemma Rpower10_log10 (y : R) : 0 < y -> Rpower 10 (log10 y) = y.
Proof.
  intros Hy. unfold Rpower, log10.
  replace (ln y / ln 10 * ln 10) with (ln y)
    by (field; pose proof ln10_pos; lra).
  now apply exp_ln.
Qed.

Lemma log10_Rpower10 (m : R) : log10 (Rpower 10 m) = m.
Proof.
  unfold log10. rewrite ln_Rpower. field. pose proof ln10_pos; lra.
Qed.

Lemma melToHz_hzToMel (hz : R) : -700 < hz -> melToHz (hzToMel hz) = hz.
Proof.
  intros H. unfold melToHz, hzToMel.
  replace (2595 * log10 (1 + hz / 700) / 2595) with (log10 (1 + hz / 700)) by field.
  rewrite Rpower10_log10 by lra. field.
Qed.

Lemma hzToMel_melToHz (mel : R) : hzToMel (melToHz mel) = mel.
Proof.
  unfold melToHz, hzToMel.
  replace (1 + 700 * (Rpower 10 (mel / 2595) - 1) / 700)
    with (Rpower 10 (mel / 2595)) by field.
  rewrite log10_Rpower10. field.
Qed.

Lemma melToHz_increasing (m1 m2 : R) : m1 < m2 -> melToHz m1 < melToHz m2.
Proof.
  intros H. unfold melToHz.
  assert (Rpower 10 (m1 / 2595) < Rpower 10 (m2 / 2595))
    by (apply Rpower_lt; lra).
  lra.
Qed.

Lemma hzToMel_increasing (h1 h2 : R) :
  -700 < h1 -> h1 < h2 -> hzToMel h1 < hzToMel h2.
Proof.
  intros H1 H. unfold hzToMel, log10.
  assert (ln (1 + h1 / 700) < ln (1 + h2 / 700))
    by (apply ln_increasing; lra).
  pose proof ln10_pos as H10.
  apply Rmult_lt_compat_l; [lra|].
  apply Rmult_lt_compat_r; [now apply Rinv_0_lt_compat|assumption].
Qed.

Lemma nth_map_seq {A : Type} (f : nat -> A) (n i : nat) (d : A) :
  (i < n)%nat -> nth i (map f (seq 0 n)) d = f i.
Proof.
  intros Hi. rewrite (nth_indep _ d (f 0%nat)) by now rewrite length_map, length_seq.
  rewrite map_nth, seq_nth by assumption. reflexivity.
Qed.

Section MelBands.

Variable c : Constants.

Let minMel : R := hzToMel 100.
Let maxMel : R := hzToMel (SPEECH_MAX_FREQ c).
Let step : R := (maxMel - minMel) / INR (NUM_BANDS c).
Let band (i : nat) : MelBand := nth i (getMelBands c) (mkBand 0 0 0).

Lemma band_at (i : nat) :
  (i < NUM_BANDS c)%nat ->
  band i = mkBand (melToHz (minMel + INR i * step))
                  (melToHz (minMel + (INR i + 1) * step))
                  (melToHz (minMel + (INR i + 0.5) * step)).
Proof.
  intros Hi. unfold band, getMelBands. now rewrite nth_map_seq.
Qed.

(** C5.  [getMelBands] returns exactly [NUM_BANDS] bands; in the mel domain
    band [i] is the interval from [minMel + i*step] to [minMel + (i+1)*step]
    with [step = (mel(SPEECH_MAX_FREQ) - mel(100)) / NUM_BANDS], so the bands
    are of equal width, adjacent and cover [mel(100), mel(SPEECH_MAX_FREQ)];
    start, end and center are the inverse mel transforms of the interval's
    boundaries and midpoint; the centers are strictly increasing; the first
    band starts at 100 Hz and the last one ends at [SPEECH_MAX_FREQ]. *)
Theorem getMelBands_partition :
  (1 <= NUM_BANDS c)%nat ->
  100 < SPEECH_MAX_FREQ c ->
  length (getMelBands c) = NUM_BANDS c
  /\ (forall i, (i < NUM_BANDS c)%nat ->
        start (band i) = melToHz (minMel + INR i * step)
        /\ end_ (band i) = melToHz (minMel + (INR i + 1) * step)
        /\ center (band i) = melToHz (minMel + (INR i + 0.5) * step)
        /\ hzToMel (start (band i)) = minMel + INR i * step
        /\ hzToMel (end_ (band i)) - hzToMel (start (band i)) = step
        /\ hzToMel (center (band i))
           = (hzToMel (start (band i)) + hzToMel (end_ (band i))) / 2)
  /\ (forall i, (i + 1 < NUM_BANDS c)%nat -> end_ (band i) = start (band (i + 1)))
  /\ (forall i j, (i < j < NUM_BANDS c)%nat -> center (band i) < center (band j))
  /\ hzToMel (start (band 0)) = hzToMel 100
  /\ hzToMel (end_ (band (NUM_BANDS c - 1))) = hzToMel (SPEECH_MAX_FREQ c)
  /\ start (band 0) = 100
  /\ end_ (band (NUM_BANDS c - 1)) = SPEECH_MAX_FREQ c.
Proof.
  intros HN Hmax.
  assert (HNr : 1 <= INR (NUM_BANDS c)) by (apply (le_INR 1); lia).
  assert (Hstep : 0 < step).
  { unfold step. apply Rdiv_lt_0_compat; [|lra].
    unfold maxMel, minMel.
    assert (hzToMel 100 < hzToMel (SPEECH_MAX_FREQ c))
      by (apply hzToMel_increasing; lra).
    lra. }
  assert (Hfirst : minMel + INR 0 * step = minMel) by (simpl; lra).
  assert (Hlast : minMel + (INR (NUM_BANDS c - 1) + 1) * step = maxMel).
  { rewrite minus_INR by lia. simpl. unfold step. field. lra. }
  split; [apply getMelBands_length|].
  split.
  { intros i Hi. rewrite (band_at i Hi). cbn [start end_ center].
    rewrite !hzToMel_melToHz. repeat split; lra. }
  split.
  { intros i Hi. rewrite (band_at i), (band_at (i + 1)) by lia.
    cbn [start end_]. f_equal. rewrite plus_INR. simpl. lra. }
  split.
  { intros i j Hij. rewrite (band_at i), (band_at j) by lia. cbn [center].
    apply melToHz_increasing.
    assert (INR i < INR j) by (apply lt_INR; lia). nra. }
  rewrite (band_at 0), (band_at (NUM_BANDS c - 1)) by lia.
  cbn [start end_]. rewrite Hfirst, Hlast. unfold minMel, maxMel.
  rewrite !melToHz_hzToMel by lra. repeat split; reflexivity.
Qed.

End MelBands.

(** ** Pitch extraction (C6, C10) *)

Section PitchSearch.

Variable buffer : list R.

(** The period loop over [a, a + n), started from [(bc, bp)]: either no
    period beat [bc] and the pair is unchanged, or the loop holds the first
    period of maximal correlation, which beats [bc]. *)
Lemma period_loop_invariant (n a : nat) (bc : R) (bp : nat) :
  let r := fold_left (pitchStep buffer) (seq a n) (bc, bp) in
  (r = (bc, bp)
   /\ forall p, (a <= p < a + n)%nat -> correlationAt buffer p <= bc)
  \/ ((a <= snd r < a + n)%nat
      /\ fst r = correlationAt buffer (snd r)
      /\ bc < fst r
      /\ (forall p, (a <= p < a + n)%nat -> correlationAt buffer p <= fst r)
      /\ (forall p, (a <= p < snd r)%nat -> correlationAt buffer p < fst r)).
Proof.
  revert a bc bp. induction n as [|n IH]; intros a bc bp;
    cbn [seq fold_left]; cbv zeta.
  - left. split; [reflexivity|]. intros p Hp. lia.
  - assert (Hstep : pitchStep buffer (bc, bp) a
                    = if Rgt_dec (correlationAt buffer a) bc
                      then (correlationAt buffer a, a) else (bc, bp))
      by reflexivity.
    rewrite Hstep. clear Hstep.
    destruct (Rgt_dec (correlationAt buffer a) bc) as [Hgt|Hle].
    + unfold Rgt in Hgt.
      specialize (IH (S a) (correlationAt buffer a) a). cbv zeta in IH.
      destruct IH as [[Hr Hall]|(Hin & Hfst & Hbeat & Hall & Hbefore)].
      * right. rewrite Hr. cbn [fst snd].
        split; [lia|]. split; [reflexivity|]. split; [lra|]. split.
        -- intros p Hp. destruct (Nat.eq_dec p a) as [->|]; [lra|]. apply Hall. lia.
        -- intros p Hp. lia.
      * right. split; [lia|]. split; [assumption|]. split; [lra|]. split.
        -- intros p Hp. destruct (Nat.eq_dec p a) as [->|]; [lra|]. apply Hall. lia.
        -- intros p Hp. destruct (Nat.eq_dec p a) as [->|]; [lra|]. apply Hbefore. lia.
    + assert (Hle' : correlationAt buffer a <= bc) by (unfold Rgt in Hle; lra).
      specialize (IH (S a) bc bp). cbv zeta in IH.
      destruct IH as [[Hr Hall]|(Hin & Hfst & Hbeat & Hall & Hbefore)].
      * left. split; [assumption|].
        intros p Hp. destruct (Nat.eq_dec p a) as [->|]; [lra|]. apply Hall. lia.
      * right. split; [lia|]. split; [assumption|]. split; [lra|]. split.
        -- intros p Hp. destruct (Nat.eq_dec p a) as [->|]; [lra|]. apply Hall. lia.
        -- intros p Hp. destruct (Nat.eq_dec p a) as [->|]; [lra|]. apply Hbefore. lia.
Qed.

Variable sampleRate : Z.

Lemma bestOf_cases :
  (bestOf buffer sampleRate = (0, 0%nat)
   /\ forall p, (minPeriod sampleRate <= p < maxPeriod sampleRate)%nat ->
                correlationAt buffer p <= 0)
  \/ (exists best,
        snd (bestOf buffer sampleRate) = best
        /\ (minPeriod sampleRate <= best < maxPeriod sampleRate)%nat
        /\ 0 < correlationAt buffer best
        /\ (forall p, (minPeriod sampleRate <= p < maxPeriod sampleRate)%nat ->
                      correlationAt buffer p <= correlationAt buffer best)
        /\ (forall p, (minPeriod sampleRate <= p < best)%nat ->
                      correlationAt buffer p < correlationAt buffer best)).
Proof.
  unfold bestOf, periods.
  pose proof (period_loop_invariant
                (maxPeriod sampleRate - minPeriod sampleRate)
                (minPeriod sampleRate) 0 0%nat) as H.
  cbv zeta in H.
  destruct H as [[Hr Hall]|(Hin & Hfst & Hbeat & Hall & Hbefore)].
  - left. split; [assumption|]. intros p Hp. apply Hall. lia.
  - right. eexists. split; [reflexivity|].
    rewrite <- Hfst.
    split; [lia|]. split; [lra|]. split.
    + intros p Hp. apply Hall. lia.
    + intros p Hp. apply Hbefore. lia.
Qed.

Lemma minPeriod_pos : (800 <= sampleRate)%Z -> (1 <= minPeriod sampleRate)%nat.
Proof.
  intros H. unfold minPeriod.
  assert (1 <= sampleRate / 800)%Z by (apply Z.div_le_lower_bound; lia). lia.
Qed.

(** C6, as the code has it.  The candidate periods are the integers [p] with
    [floor(sampleRate/800) <= p < floor(sampleRate/70)]; each is scored by
    the unnormalised sum [correlationAt] of [buffer[i] * buffer[i+p]] over
    the even [i] below [length - p].  The result is 0 when the RMS of the
    window is below [0.01]; otherwise it is 0 when no candidate has a
    positive sum, and [sampleRate / best] for the first candidate [best] of
    maximal sum when one has. *)
Theorem extractPitch_autocorrelation :
  (800 <= sampleRate)%Z ->
  (rmsOf buffer < 0.01 -> extractPitch buffer sampleRate = 0)
  /\ (~ rmsOf buffer < 0.01 ->
      (forall p, (minPeriod sampleRate <= p < maxPeriod sampleRate)%nat ->
                 correlationAt buffer p <= 0) ->
      extractPitch buffer sampleRate = 0)
  /\ (~ rmsOf buffer < 0.01 ->
      (exists p, (minPeriod sampleRate <= p < maxPeriod sampleRate)%nat
                 /\ 0 < correlationAt buffer p) ->
      exists best,
        (minPeriod sampleRate <= best < maxPeriod sampleRate)%nat
        /\ 0 < correlationAt buffer best
        /\ (forall p, (minPeriod sampleRate <= p < maxPeriod sampleRate)%nat ->
                      correlationAt buffer p <= correlationAt buffer best)
        /\ (forall p, (minPeriod sampleRate <= p < best)%nat ->
                      correlationAt buffer p < correlationAt buffer best)
        /\ extractPitch buffer sampleRate = IZR sampleRate / INR best)
  /\ minPeriod sampleRate = Z.to_nat (sampleRate / 800)
  /\ maxPeriod sampleRate = Z.to_nat (sampleRate / 70)
  /\ (forall p, correlationAt buffer p
                = fold_left (fun s i => s + nth i buffer 0 * nth (i + p) buffer 0)
                            (evens_below (length buffer - p)) 0).
Proof.
  intros Hsr. pose proof (minPeriod_pos Hsr) as Hmin.
  split; [|split; [|split]].
  - intros Hrms. unfold extractPitch. now destruct (Rlt_dec (rmsOf buffer) 0.01).
  - intros Hrms Hnone. unfold extractPitch.
    destruct (Rlt_dec (rmsOf buffer) 0.01); [reflexivity|].
    destruct bestOf_cases as [[Hr _]|(best & Hb & Hin & Hpos & _)].
    + now rewrite Hr.
    + specialize (Hnone best Hin). lra.
  - intros Hrms (p & Hp & Hpos). unfold extractPitch.
    destruct (Rlt_dec (rmsOf buffer) 0.01); [contradiction|].
    destruct bestOf_cases as [[_ Hall]|(best & Hb & Hin & Hbpos & Hmax & Hfirst)].
    + specialize (Hall p Hp). lra.
    + exists best. rewrite Hb.
      replace (0 <? best)%nat with true by (symmetry; apply Nat.ltb_lt; lia).
      split; [lia|]. split; [assumption|]. split; [assumption|].
      split; [assumption|reflexivity].
  - split; [reflexivity|]. split; reflexivity.
Qed.

(** C10.  With a sample rate of at least 800 Hz, a non-zero result of
    [extractPitch] is strictly above 70 Hz and at most
    [sampleRate / floor(sampleRate/800)]: it is [sampleRate / p] for a
    period [p] with [floor(sampleRate/800) <= p < floor(sampleRate/70)], and
    0 is the only other value returned. *)
Theorem extractPitch_range :
  (800 <= sampleRate)%Z ->
  extractPitch buffer sampleRate = 0
  \/ (70 < extractPitch buffer sampleRate <= IZR sampleRate / IZR (sampleRate / 800)
      /\ exists p, (minPeriod sampleRate <= p < maxPeriod sampleRate)%nat
                   /\ extractPitch buffer sampleRate = IZR sampleRate / INR p).
Proof.
  intros Hsr. pose proof (minPeriod_pos Hsr) as Hmin.
  unfold extractPitch.
  destruct (Rlt_dec (rmsOf buffer) 0.01); [now left|].
  destruct bestOf_cases as [[Hr _]|(best & Hb & Hin & _)].
  - left. now rewrite Hr.
  - right. rewrite Hb.
    replace (0 <? best)%nat with true by (symmetry; apply Nat.ltb_lt; lia).
    split; [|exists best; split; [assumption|reflexivity]].
    unfold minPeriod, maxPeriod in Hin, Hmin.
    assert (Hq8 : (1 <= sampleRate / 800)%Z) by (apply Z.div_le_lower_bound; lia).
    assert (Hlo : (sampleRate / 800 <= Z.of_nat best)%Z) by lia.
    assert (Hhi : (Z.of_nat best + 1 <= sampleRate / 70)%Z) by lia.
    assert (H70 : (70 * (sampleRate / 70) <= sampleRate)%Z)
      by (apply Z.mul_div_le; lia).
    assert (Hb70 : (70 * Z.of_nat best < sampleRate)%Z) by lia.
    rewrite (INR_IZR_INZ best).
    apply IZR_le in Hlo, Hq8. apply IZR_lt in Hb70.
    rewrite mult_IZR in Hb70.
    assert (Hbpos : 0 < IZR (Z.of_nat best)) by lra.
    assert (Hspos : 0 < IZR sampleRate) by (apply IZR_lt; lia).
    split.
    + apply Rmult_lt_reg_r with (IZR (Z.of_nat best)); [assumption|].
      unfold Rdiv. rewrite Rmult_assoc, Rinv_l by lra. lra.
    + unfold Rdiv. apply Rmult_le_compat_l; [lra|].
      apply Rinv_le_contravar; lra.
Qed.

End PitchSearch.

(** ** Parabolic refinement of the carrier peak (C7) *)

(** C7.  When the magnitudes around the peak bin form a symmetric triple
    [a, b, a] on which the interpolation is defined ([a - 2b + a <> 0]), the
    refined bin is the peak bin: the offset
    [0.5 * (left - right) / (left - 2*center + right)] is exactly 0. *)
Theorem refineBin_symmetric (magnitudes : list R) (peakBin : Z) (a b : R) :
  magAt magnitudes (peakBin - 1) = a ->
  magAt magnitudes peakBin = b ->
  magAt magnitudes (peakBin + 1) = a ->
  a - 2 * b + a <> 0 ->
  0.5 * (a - a) / (a - 2 * b + a) = 0
  /\ refineBin magnitudes peakBin - IZR peakBin = 0
  /\ refineBin magnitudes peakBin = IZR peakBin.
Proof.
  intros Hl Hc Hr Hden.
  assert (Hoff : 0.5 * (a - a) / (a - 2 * b + a) = 0) by (field; assumption).
  assert (Href : refineBin magnitudes peakBin = IZR peakBin).
  { unfold refineBin.
    destruct ((0 <? peakBin)%Z && (peakBin <? Z.of_nat (length magnitudes) - 1)%Z);
      [|reflexivity].
    rewrite Hl, Hc, Hr, Hoff. lra. }
  split; [assumption|]. split; [rewrite Href; lra|assumption].
Qed.

(** ** Median smoothing of the decoder's pitch (C8) *)







Section Smoothing.

Variable c : Constants.
Variable inputData : list R.






End Smoothing.

(** ** The amplitude field of the decoded frames (C9) *)

Lemma fetch_map {A B : Type} (g : A -> B) (xs : list A) (i : nat) :
  fetch (map g xs) i
  = match fetch xs i with
    | Ok a => Ok (g a)
    | Err e => Err e
    end.
Proof.
  unfold fetch. rewrite nth_error_map. now destruct (nth_error xs i).
Qed.

Lemma withoutAmplitude_agree (frames1 frames2 : list DecodedFrame) :
  map pitch frames1 = map pitch frames2 ->
  map bandEnergies frames1 = map bandEnergies frames2 ->
  map withoutAmplitude frames1 = map withoutAmplitude frames2.
Proof.
  revert frames2. induction frames1 as [|f1 l1 IH]; intros [|f2 l2]; simpl;
    try discriminate; [reflexivity|].
  intros [= Hp Hps] [= Hb Hbs]. unfold withoutAmplitude at 1 3.
  rewrite Hp, Hb. f_equal. now apply IH.
Qed.

Section Resynthesis.

Variable c : Constants.
Variable rand : nat -> R.

Lemma harmonicLoop_withoutAmplitude (frame next : DecodedFrame) (pos p : R)
  (hs : list nat) (acc : list R * R) :
  harmonicLoop c (withoutAmplitude frame) (withoutAmplitude next) pos p hs acc
  = harmonicLoop c frame next pos p hs acc.
Proof.
  revert acc. induction hs as [|h rest IH]; intros acc; cbn [harmonicLoop].
  - reflexivity.
  - destruct (Rgt_dec (p * INR h) (SPEECH_MAX_FREQ c)); [reflexivity|].
    rewrite IH. reflexivity.
Qed.

Lemma sibilanceLoop_withoutAmplitude (frame next : DecodedFrame) (pos : R)
  (i : nat) (phase noise : R) (bs : list nat) (sibilance : R) :
  sibilanceLoop c (withoutAmplitude frame) (withoutAmplitude next)
                pos i phase noise bs sibilance
  = sibilanceLoop c frame next pos i phase noise bs sibilance.
Proof.
  revert sibilance. induction bs as [|b rest IH]; intros sibilance;
    cbn [sibilanceLoop].
  - reflexivity.
  - destruct (fetch (MEL_BANDS c) b); cbn [bind]; [|reflexivity].
    rewrite IH. reflexivity.
Qed.

Lemma decodeSample_withoutAmplitude (frame next : DecodedFrame) (i : nat)
  (st : DecState) :
  decodeSample c rand (withoutAmplitude frame) (withoutAmplitude next) i st
  = decodeSample c rand frame next i st.
Proof.
  unfold decodeSample. cbn [withoutAmplitude pitch].
  rewrite harmonicLoop_withoutAmplitude, sibilanceLoop_withoutAmplitude.
  reflexivity.
Qed.

Lemma decodeLoop_withoutAmplitude (frames : list DecodedFrame)
  (indices : list nat) (st : DecState) :
  decodeLoop c rand (map withoutAmplitude frames) indices st
  = decodeLoop c rand frames indices st.
Proof.
  revert st. induction indices as [|i rest IH]; intros st; cbn [decodeLoop].
  - reflexivity.
  - rewrite length_map, !fetch_map.
    destruct (Z.of_nat (length frames) - 1 <=? Z.of_nat (i / HOP_SIZE c))%Z;
      [reflexivity|].
    destruct (fetch frames (i / HOP_SIZE c)) as [frame|]; cbn [bind]; [|reflexivity].
    destruct (fetch frames (i / HOP_SIZE c + 1)) as [next|]; cbn [bind]; [|reflexivity].
    rewrite decodeSample_withoutAmplitude.
    destruct (decodeSample c rand frame next i st); cbn [bind]; [apply IH|reflexivity].
Qed.

Lemma decodeResynth_withoutAmplitude (frames : list DecodedFrame) (n : nat) :
  decodeResynth c rand (map withoutAmplitude frames) n = decodeResynth c rand frames n.
Proof.
  unfold decodeResynth. now rewrite decodeLoop_withoutAmplitude.
Qed.

(** C9.  Two resynthesis runs on the same random stream, over frame
    sequences that agree on [pitch] and [bandEnergies] and differ arbitrarily
    in [amplitude], produce the same output buffer, before and after
    normalisation: the field is stored and never read. *)
Theorem resynthesis_ignores_amplitude (frames1 frames2 : list DecodedFrame)
  (outputLength : nat) :
  map pitch frames1 = map pitch frames2 ->
  map bandEnergies frames1 = map bandEnergies frames2 ->
  decodeResynth c rand frames1 outputLength = decodeResynth c rand frames2 outputLength
  /\ (outputData <- decodeResynth c rand frames1 outputLength ;;
      Ok (normalizePeak 0.85 outputData))
     = (outputData <- decodeResynth c rand frames2 outputLength ;;
        Ok (normalizePeak 0.85 outputData)).
Proof.
  intros Hp Hb.
  assert (H : decodeResynth c rand frames1 outputLength
              = decodeResynth c rand frames2 outputLength).
  { rewrite <- (decodeResynth_withoutAmplitude frames1),
            <- (decodeResynth_withoutAmplitude frames2).
    now rewrite (withoutAmplitude_agree frames1 frames2 Hp Hb). }
  split; [assumption|now rewrite H].
Qed.

End Resynthesis.

(** * The statements on concrete data *)

Lemma oneFrameBuffer_frames : numFramesOf sampleConstants (length oneFrameBuffer) = 1%Z.
Proof. unfold oneFrameBuffer. rewrite repeat_length. reflexivity. Qed.

Lemma shortBuffer_frames : numFramesOf sampleConstants (length shortBuffer) = 0%Z.
Proof. unfold shortBuffer. rewrite repeat_length. reflexivity. Qed.

Lemma encode_decode_preserve_length_witness :
  (0 < numFramesOf sampleConstants (length oneFrameBuffer))%Z
  /\ (exists out, encodeTobirdsong sampleConstants constantRandom oneFrameBuffer = Ok out
                  /\ length out = length oneFrameBuffer)
  /\ (exists out, decodeFrombirdsong sampleConstants constantRandom oneFrameBuffer = Ok out
                  /\ length out = length oneFrameBuffer).
Proof.
  split.
  - rewrite oneFrameBuffer_frames. reflexivity.
  - pose proof (encode_decode_preserve_length sampleConstants constantRandom
                  oneFrameBuffer) as H.
    rewrite oneFrameBuffer_frames in H.
    destruct (H eq_refl) as (He & Hd & _). split; assumption.
Defined.

(** A buffer one sample longer than [FFT_SIZE] is rejected by both workers. *)
Lemma buffer_longer_than_FFT_SIZE_rejected :
  (FFT_SIZE sampleConstants < length shortBuffer)%nat
  /\ encodeTobirdsong sampleConstants constantRandom shortBuffer = Err AudioTooShort
  /\ decodeFrombirdsong sampleConstants constantRandom shortBuffer = Err AudioTooShort.
Proof.
  split; [unfold shortBuffer; rewrite repeat_length; simpl; lia|].
  unfold encodeTobirdsong, decodeFrombirdsong.
  rewrite encodeSynth_too_short, decodeSynth_too_short
    by (rewrite shortBuffer_frames; lia).
  split; reflexivity.
Qed.

Lemma too_short_below_frame_plus_hop_witness :
  (0 < HOP_SIZE sampleConstants)%nat
  /\ (encodeTobirdsong sampleConstants constantRandom shortBuffer = Err AudioTooShort
      <-> (length shortBuffer < FFT_SIZE sampleConstants + HOP_SIZE sampleConstants)%nat).
Proof.
  assert (H : (0 < HOP_SIZE sampleConstants)%nat) by (simpl; lia).
  split; [exact H|].
  exact (proj1 (too_short_below_frame_plus_hop sampleConstants constantRandom shortBuffer H)).
Defined.

(** A non-silent input of valid length with a single analysis frame is
    encoded to the all-zero buffer, whose peak is 0 and not 0.95. *)
Lemma single_frame_input_encoded_to_zeros :
  (0 < numFramesOf sampleConstants (length oneFrameBuffer))%Z
  /\ Forall (fun x => x = 0.5) oneFrameBuffer
  /\ encodeTobirdsong sampleConstants constantRandom oneFrameBuffer
     = Ok (repeat 0 2560)
  /\ peakAbs (repeat 0 2560) = 0
  /\ peakAbs (repeat 0 2560) <> 0.95.
Proof.
  assert (Hpeak : peakAbs (repeat 0 2560) = 0)
    by apply peakAbs_of_zeros, repeat_zeros.
  split; [rewrite oneFrameBuffer_frames; reflexivity|].
  split.
  { apply Forall_forall. intros x Hx. now apply repeat_spec in Hx. }
  split.
  { rewrite encode_single_frame by apply oneFrameBuffer_frames.
    unfold oneFrameBuffer. now rewrite repeat_length. }
  split; [assumption|]. rewrite Hpeak. lra.
Qed.

Lemma silence_encodes_to_silence_witness :
  (0 < numFramesOf sampleConstants 4096)%Z
  /\ encodeTobirdsong sampleConstants constantRandom (repeat 0 4096)
     = Ok (repeat 0 4096).
Proof.
  assert (H : (0 < numFramesOf sampleConstants 4096)%Z) by reflexivity.
  split; [exact H|].
  exact (proj1 (silence_encodes_to_silence sampleConstants constantRandom 4096 H)).
Defined.

Lemma getMelBands_partition_witness :
  (1 <= NUM_BANDS sampleConstants)%nat
  /\ 100 < SPEECH_MAX_FREQ sampleConstants
  /\ length (getMelBands sampleConstants) = 32%nat.
Proof.
  assert (H1 : (1 <= NUM_BANDS sampleConstants)%nat) by (simpl; lia).
  assert (H2 : 100 < SPEECH_MAX_FREQ sampleConstants) by (simpl; lra).
  split; [exact H1|]. split; [exact H2|].
  exact (proj1 (getMelBands_partition sampleConstants H1 H2)).
Defined.

Lemma refineBin_symmetric_witness :
  1 - 2 * 3 + 1 <> 0
  /\ refineBin [0; 1; 3; 1; 0] 2 = 2.
Proof.
  assert (H : 1 - 2 * 3 + 1 <> 0) by lra.
  split; [exact H|].
  exact (proj2 (proj2 (refineBin_symmetric [0; 1; 3; 1; 0] 2 1 3
                         eq_refl eq_refl eq_refl H))).
Defined.

Lemma resynthesis_ignores_amplitude_witness :
  decodeResynth sampleConstants constantRandom
    [mkFrame [] 0 1; mkFrame [] 0 2] 2560
  = decodeResynth sampleConstants constantRandom
      [mkFrame [] 0 5; mkFrame [] 0 7] 2560.
Proof.
  exact (proj1 (resynthesis_ignores_amplitude sampleConstants constantRandom
                  [mkFrame [] 0 1; mkFrame [] 0 2]
                  [mkFrame [] 0 5; mkFrame [] 0 7] 2560 eq_refl eq_refl)).
Defined.

(** ** A window on which the period of 70 Hz is the best one *)

Lemma nth_impulsePair (gap len i : nat) :
  nth i (impulsePair gap len) 0
  = if ((i <? len) && ((i =? 0) || (i =? gap)))%nat then 1 else 0.
Proof.
  unfold impulsePair. destruct (Nat.ltb_spec i len) as [Hi|Hi]; cbn [andb].
  - now rewrite nth_map_seq.
  - apply nth_overflow. now rewrite length_map, length_seq.
Qed.

Lemma impulsePair_length (gap len : nat) : length (impulsePair gap len) = len.
Proof. unfold impulsePair. now rewrite length_map, length_seq. Qed.

Lemma sum_of_zero_terms (g : nat -> R) (l : list nat) (a : R) :
  (forall i, In i l -> g i = 0) -> fold_left (fun s i => s + g i) l a = a.
Proof.
  revert a. induction l as [|i l IH]; intros a Hz; simpl; [reflexivity|].
  rewrite IH by (intros j Hj; apply Hz; now right).
  rewrite (Hz i) by now left. lra.
Qed.

Lemma impulsePair_product (gap len p i : nat) :
  (1 <= p)%nat -> (i <> 0 \/ p <> gap)%nat ->
  nth i (impulsePair gap len) 0 * nth (i + p) (impulsePair gap len) 0 = 0.
Proof.
  intros Hp Hcase. rewrite !nth_impulsePair.
  destruct (i <? len)%nat, (i + p <? len)%nat; cbn [andb]; try lra.
  destruct (Nat.eqb_spec i 0), (Nat.eqb_spec i gap),
           (Nat.eqb_spec (i + p) 0), (Nat.eqb_spec (i + p) gap);
    cbn [orb]; try lra; lia.
Qed.

Lemma correlationAt_impulsePair_off (gap len p : nat) :
  (1 <= p)%nat -> p <> gap -> correlationAt (impulsePair gap len) p = 0.
Proof.
  intros Hp Hne. unfold correlationAt.
  apply (sum_of_zero_terms
           (fun i => nth i (impulsePair gap len) 0 * nth (i + p) (impulsePair gap len) 0)).
  intros i _. apply impulsePair_product; [assumption|now right].
Qed.

Lemma correlationAt_impulsePair_at (gap len : nat) :
  (1 <= gap)%nat -> (gap < len)%nat ->
  correlationAt (impulsePair gap len) gap = 1.
Proof.
  intros Hg Hlen. unfold correlationAt. rewrite impulsePair_length.
  destruct (len - gap)%nat as [|m] eqn:Hm; [lia|].
  unfold evens_below. cbn [seq filter Nat.even fold_left].
  rewrite (sum_of_zero_terms
             (fun i => nth i (impulsePair gap len) 0 * nth (i + gap) (impulsePair gap len) 0)).
  - rewrite !nth_impulsePair. cbn [Nat.add].
    replace (0 <? len)%nat with true by (symmetry; apply Nat.ltb_lt; lia).
    replace (gap <? len)%nat with true by (symmetry; apply Nat.ltb_lt; lia).
    rewrite !Nat.eqb_refl, orb_true_r. cbn [andb orb]. lra.
  - intros i Hi. apply filter_In in Hi. destruct Hi as [Hi _].
    apply in_seq in Hi. apply impulsePair_product; [assumption|left; lia].
Qed.

Lemma sumSq_bound (l : list R) (a x : R) :
  0 <= a -> In x l -> x * x <= fold_left (fun s v => s + v * v) l a.
Proof.
  revert a. induction l as [|y l IH]; intros a Ha Hin; simpl; [contradiction|].
  destruct Hin as [->|Hin].
  - clear IH. assert (Hmono : forall l' b, b <= fold_left (fun s v => s + v * v) l' b).
    { induction l' as [|z l' IH']; intros b; simpl; [lra|].
      eapply Rle_trans; [|apply IH']. nra. }
    eapply Rle_trans; [|apply Hmono]. lra.
  - apply IH; [nra|assumption].
Qed.

Lemma impulsePair_audible (gap len : nat) :
  (0 < len <= 2048)%nat -> 0.01 <= rmsOf (impulsePair gap len).
Proof.
  intros Hlen. unfold rmsOf. rewrite impulsePair_length.
  assert (Hs : 1 * 1 <= fold_left (fun s v => s + v * v) (impulsePair gap len) 0).
  { apply sumSq_bound; [lra|]. unfold impulsePair. apply in_map_iff.
    exists 0%nat. split; [reflexivity|]. apply in_seq. lia. }
  set (S := fold_left (fun s v => s + v * v) (impulsePair gap len) 0) in *.
  assert (Hn : 0 < INR len <= 2048).
  { split; [apply lt_0_INR; lia|].
    replace 2048 with (INR 2048)
      by (rewrite INR_IZR_INZ; change (Z.of_nat 2048) with 2048%Z; reflexivity).
    apply le_INR. lia. }
  assert (H : sqrt (0.01 * 0.01) <= sqrt (S / INR len)).
  { apply sqrt_le_1; [lra| |].
    - apply Rle_mult_inv_pos; lra.
    - apply Rle_trans with (1 / 2048); [lra|].
      apply Rle_trans with (1 / INR len).
      + unfold Rdiv. apply Rmult_le_compat_l; [lra|].
        apply Rinv_le_contravar; lra.
      + unfold Rdiv. apply Rmult_le_compat_r; [|lra].
        apply Rlt_le, Rinv_0_lt_compat; lra. }
  rewrite sqrt_square in H by lra. exact H.
Qed.

(** The period 630 lies in [[44100/800, 44100/70]], its correlation sum is
    positive and the largest of that interval, the window is not silent, yet
    [extractPitch] returns 0 and not [44100 / 630 = 70]: the loop stops
    before [floor(44100/70)]. *)
Lemma period_of_70Hz_not_searched :
  IZR 44100 / 800 <= INR 630 <= IZR 44100 / 70
  /\ 0 < correlationAt (impulsePair 630 2048) 630
  /\ (forall p, IZR 44100 / 800 <= INR p <= IZR 44100 / 70 ->
                correlationAt (impulsePair 630 2048) p
                <= correlationAt (impulsePair 630 2048) 630)
  /\ ~ rmsOf (impulsePair 630 2048) < 0.01
  /\ extractPitch (impulsePair 630 2048) 44100 = 0
  /\ IZR 44100 / INR 630 = 70.
Proof.
  assert (H630 : INR 630 = 630)
    by (rewrite INR_IZR_INZ; change (Z.of_nat 630) with 630%Z; reflexivity).
  assert (Hat : correlationAt (impulsePair 630 2048) 630 = 1)
    by (apply correlationAt_impulsePair_at; lia).
  split; [rewrite H630; lra|].
  split; [rewrite Hat; lra|].
  split.
  { intros p [Hlo _]. rewrite Hat.
    destruct (Nat.eq_dec p 630) as [->|Hne]; [rewrite Hat; lra|].
    rewrite correlationAt_impulsePair_off; [lra| |assumption].
    destruct p; [simpl in Hlo; lra|lia]. }
  split; [pose proof (impulsePair_audible 630 2048 ltac:(lia)); lra|].
  split; [|rewrite H630; lra].
  unfold extractPitch.
  destruct (Rlt_dec (rmsOf (impulsePair 630 2048)) 0.01); [reflexivity|].
  destruct (bestOf_cases (impulsePair 630 2048) 44100)
    as [[Hr _]|(best & _ & Hin & Hpos & _)].
  - now rewrite Hr.
  - change (minPeriod 44100) with 55%nat in Hin.
    change (maxPeriod 44100) with 630%nat in Hin.
    rewrite correlationAt_impulsePair_off in Hpos by lia. lra.
Qed.

Lemma extractPitch_autocorrelation_witness :
  (800 <= 44100)%Z
  /\ (rmsOf (impulsePair 630 2048) < 0.01 ->
      extractPitch (impulsePair 630 2048) 44100 = 0).
Proof.
  assert (H : (800 <= 44100)%Z) by lia.
  split; [exact H|].
  exact (proj1 (extractPitch_autocorrelation (impulsePair 630 2048) 44100 H)).
Defined.

Lemma extractPitch_range_witness :
  (800 <= 44100)%Z
  /\ (extractPitch (impulsePair 100 2048) 44100 = 0
      \/ (70 < extractPitch (impulsePair 100 2048) 44100 <= IZR 44100 / IZR (44100 / 800)
          /\ exists p, (minPeriod 44100 <= p < maxPeriod 44100)%nat
                       /\ extractPitch (impulsePair 100 2048) 44100 = IZR 44100 / INR p)).
Proof.
  assert (H : (800 <= 44100)%Z) by lia.
  split; [exact H|].
  exact (extractPitch_range (impulsePair 100 2048) 44100 H).
Defined.

(** ** An input whose encoding peaks at 0.95 *)

Lemma nth_store_same {A : Type} (xs : list A) (i : nat) (x d : A) :
  (i < length xs)%nat -> nth i (store xs i x) d = x.
Proof.
  revert i. induction xs as [|h t IH]; intros [|j] Hi; simpl in *; try lia.
  - reflexivity.
  - apply IH. lia.
Qed.

Lemma nth_store_other {A : Type} (xs : list A) (i j : nat) (x d : A) :
  i <> j -> nth j (store xs i x) d = nth j xs d.
Proof.
  revert i j. induction xs as [|h t IH]; intros [|i] [|j] Hij; simpl;
    try reflexivity; try lia.
  apply IH. lia.
Qed.

Lemma firstn_seq (n a m : nat) : firstn n (seq a m) = seq a (Nat.min n m).
Proof.
  revert a m. induction n as [|n IH]; intros a [|m]; simpl; try reflexivity.
  now rewrite IH.
Qed.

Lemma impulsePair_prefix (gap n len : nat) :
  (n <= len)%nat -> firstn n (impulsePair gap len) = impulsePair gap n.
Proof.
  intros H. unfold impulsePair. rewrite firstn_map, firstn_seq.
  now rewrite Nat.min_l.
Qed.

Lemma extractPitch_click : extractPitch (impulsePair 100 2048) 44100 = 441.
Proof.
  unfold extractPitch.
  pose proof (impulsePair_audible 100 2048 ltac:(lia)) as Hrms.
  destruct (Rlt_dec (rmsOf (impulsePair 100 2048)) 0.01); [lra|].
  assert (Hat : correlationAt (impulsePair 100 2048) 100 = 1)
    by (apply correlationAt_impulsePair_at; lia).
  destruct (bestOf_cases (impulsePair 100 2048) 44100)
    as [[_ Hall]|(best & Hb & Hin & Hpos & _)].
  - change (minPeriod 44100) with 55%nat in Hall.
    change (maxPeriod 44100) with 630%nat in Hall.
    specialize (Hall 100%nat ltac:(lia)). lra.
  - change (minPeriod 44100) with 55%nat in Hin.
    assert (best = 100)%nat as ->.
    { destruct (Nat.eq_dec best 100) as [|Hne]; [assumption|].
      rewrite correlationAt_impulsePair_off in Hpos by lia. lra. }
    rewrite Hb. cbn [Nat.ltb Nat.leb].
    rewrite INR_IZR_INZ. change (Z.of_nat 100) with 100%Z. lra.
Qed.

(** The band loop adds nothing when every carrier reaches a zero of the sine. *)
Lemma data_loop_at_sine_zeros (c : Constants) (frame next : FrameAnalysis)
  (pos : R) (bs : list nat) (phases : list R) (dataSignal : R) :
  NoDup bs ->
  (forall b, In b bs -> (b < length phases)%nat) ->
  (forall b, In b bs ->
     sin (nth b phases 0
          + 2 * PI * (BIRD_DATA_START_FREQ c + INR b * BIRD_DATA_STEP c)
            / IZR (SAMPLE_RATE c)) = 0) ->
  snd (fold_left (dataStep c frame next pos) bs (phases, dataSignal)) = dataSignal.
Proof.
  revert phases dataSignal.
  induction bs as [|b rest IH]; intros phases dataSignal Hnd Hlen Hsin;
    cbn [fold_left]; [reflexivity|].
  inversion Hnd as [|? ? Hnotin Hnd']; subst.
  unfold dataStep at 2. cbn [fst snd].
  rewrite nth_store_same by (apply Hlen; now left).
  rewrite (Hsin b) by now left.
  rewrite IH; [lra|assumption| |].
  - intros b' Hb'. rewrite store_length. apply Hlen. now right.
  - intros b' Hb'. rewrite nth_store_other.
    + apply Hsin. now right.
    + intros ->. contradiction.
Qed.

Lemma encodeLoop_keeps_first_sample (c : Constants) (frames : list FrameAnalysis)
  (numFrames : Z) (indices : list nat) (st st' : EncState) :
  (forall i, In i indices -> i <> 0%nat) ->
  encodeLoop c frames numFrames indices st = Ok st' ->
  nth 0 (encOut st') 0 = nth 0 (encOut st) 0.
Proof.
  revert st. induction indices as [|i rest IH]; intros st Hpos; cbn [encodeLoop].
  - now intros [= <-].
  - destruct (numFrames - 1 <=? Z.of_nat (i / HOP_SIZE c))%Z; [now intros [= <-]|].
    destruct (fetch frames (i / HOP_SIZE c)) as [frame|]; [|discriminate].
    destruct (fetch frames (i / HOP_SIZE c + 1)) as [next|]; [|discriminate].
    cbn [bind]. intros Hloop.
    rewrite (IH _ (fun j Hj => Hpos j (or_intror Hj)) Hloop).
    unfold encodeSample. cbn [encOut].
    apply nth_store_other. apply Hpos. now left.
Qed.

(** The first output sample of the click: the data layer is silent there and
    the carrier of 441 Hz * 6 is at phase [0.12 * PI]. *)
Lemma click_first_sample (frame next : FrameAnalysis) (out : list R) :
  pitch frame = 441 ->
  encOut (encodeSample sampleConstants frame next 0
            (mkEnc 0 (map (fun i => alignedRandom i * 2 * PI) (seq 0 32)) out))
  = store out 0 (sin (0.12 * PI) * 0.8 * amplitude frame).
Proof.
  intros Hp. unfold encodeSample. cbn [encOut phaseMain phaseData].
  change (HOP_SIZE sampleConstants) with 512%nat.
  change (NUM_BANDS sampleConstants) with 32%nat.
  change (0 mod 512)%nat with 0%nat.
  replace (INR 0 / INR 512) with 0 by (simpl INR at 1; unfold Rdiv; ring).
  rewrite data_loop_at_sine_zeros.
  - rewrite Hp.
    destruct (Rgt_dec (441 * (1 - 0) + pitch next * 0) 50) as [_|Hn];
      [|exfalso; apply Hn; unfold Rgt; lra].
    f_equal. cbn [PITCH_MULTIPLIER SAMPLE_RATE sampleConstants].
    replace (0 + 2 * PI * ((441 * (1 - 0) + pitch next * 0) * 6) / 44100)
      with (0.12 * PI) by lra.
    ring.
  - apply seq_NoDup.
  - intros b Hb. apply in_seq in Hb. rewrite length_map, length_seq. lia.
  - intros b Hb. apply in_seq in Hb.
    rewrite nth_map_seq by lia.
    rewrite <- sin_2PI. f_equal. unfold alignedRandom.
    cbn [BIRD_DATA_START_FREQ BIRD_DATA_STEP SAMPLE_RATE sampleConstants]. field.
Qed.

Lemma click_synthesis_audible (s : list R) :
  encodeSynth sampleConstants alignedRandom twoFrameClick = Ok s ->
  0 < peakAbs s.
Proof.
  unfold encodeSynth, twoFrameClick. rewrite impulsePair_length.
  change (numFramesOf sampleConstants 3072) with 2%Z.
  cbn [Z.leb Z.compare].
  change (analyzeFrames sampleConstants (impulsePair 100 3072) 2)
    with [analyzeSpeechFrame sampleConstants
            (firstn 2048 (impulsePair 100 3072));
          analyzeSpeechFrame sampleConstants
            (slice (impulsePair 100 3072) 512 2560)].
  rewrite impulsePair_prefix by lia.
  set (frame := analyzeSpeechFrame sampleConstants (impulsePair 100 2048)).
  set (next := analyzeSpeechFrame sampleConstants (slice (impulsePair 100 3072) 512 2560)).
  assert (Hpitch : pitch frame = 441) by apply extractPitch_click.
  assert (Hamp : 0.01 <= amplitude frame)
    by apply (impulsePair_audible 100 2048 ltac:(lia)).
  clearbody frame next.
  change (seq 0 3072) with (0%nat :: seq 1 3071).
  change (NUM_BANDS sampleConstants) with 32%nat.
  cbn [encodeLoop].
  change (0 / HOP_SIZE sampleConstants)%nat with 0%nat.
  change (2 - 1 <=? Z.of_nat 0)%Z with false.
  change (fetch [frame; next] 0) with (Ok frame).
  change (fetch [frame; next] (0 + 1)) with (Ok next).
  cbn [bind].
  match goal with
  | |- context [encodeLoop sampleConstants ?fr ?k ?ixs ?st] =>
      destruct (encodeLoop sampleConstants fr k ixs st) as [st'|] eqn:Hloop;
        [|discriminate]
  end.
  cbn [bind]. intros [= <-].
  apply encodeLoop_keeps_first_sample in Hloop;
    [|intros i Hi; apply in_seq in Hi; lia].
  rewrite click_first_sample in Hloop by exact Hpitch.
  rewrite nth_store_same in Hloop by (rewrite repeat_length; lia).
  assert (Hsin : 0 < sin (0.12 * PI)) by (pose proof PI_RGT_0; apply sin_gt_0; lra).
  assert (Hfirst : 0 < nth 0 (encOut st') 0).
  { rewrite Hloop. apply Rmult_lt_0_compat; [apply Rmult_lt_0_compat|]; lra. }
  assert (Hin : In (nth 0 (encOut st') 0) (encOut st')).
  { apply nth_In. destruct (encOut st'); [simpl in Hfirst; lra|simpl; lia]. }
  pose proof (peakFold_bound (encOut st') 0 _ Hin) as Hb.
  change (peakFold 0 (encOut st')) with (peakAbs (encOut st')) in Hb.
  rewrite Rabs_right in Hb by lra. lra.
Qed.

Lemma peak_after_normalisation_witness :
  (0 < numFramesOf sampleConstants (length twoFrameClick))%Z
  /\ exists s, encodeSynth sampleConstants alignedRandom twoFrameClick = Ok s
     /\ 0 < peakAbs s
     /\ encodeTobirdsong sampleConstants alignedRandom twoFrameClick
        = Ok (normalizePeak 0.95 s)
     /\ peakAbs (normalizePeak 0.95 s) = 0.95.
Proof.
  assert (H : (0 < numFramesOf sampleConstants (length twoFrameClick))%Z)
    by (unfold twoFrameClick; rewrite impulsePair_length; reflexivity).
  split; [exact H|].
  destruct (proj1 (peak_after_normalisation sampleConstants alignedRandom twoFrameClick H))
    as (s & Hs & He & Hpeak & _).
  exists s. split; [exact Hs|].
  split; [exact (click_synthesis_audible s Hs)|].
  split; [exact He|].
  exact (Hpeak (click_synthesis_audible s Hs)).
Defined.

(** * Further properties of the codec *)

(** ** The mel scale *)

(** X1.  [hzToMel] and [melToHz] are inverse to each other, [melToHz] after
    [hzToMel] on every frequency above -700 Hz and [hzToMel] after [melToHz]
    on every mel value; both are strictly increasing, and 0 Hz is 0 mel. *)
Theorem mel_scale_round_trip :
  (forall hz, -700 < hz -> melToHz (hzToMel hz) = hz)
  /\ (forall mel, hzToMel (melToHz mel) = mel)
  /\ (forall h1 h2, -700 < h1 -> h1 < h2 -> hzToMel h1 < hzToMel h2)
  /\ (forall m1 m2, m1 < m2 -> melToHz m1 < melToHz m2)
  /\ hzToMel 0 = 0
  /\ melToHz 0 = 0.
Proof.
  split; [exact melToHz_hzToMel|]. split; [exact hzToMel_melToHz|].
  split; [exact hzToMel_increasing|]. split; [exact melToHz_increasing|].
  assert (H0 : hzToMel 0 = 0).
  { unfold hzToMel, log10. replace (1 + 0 / 700) with 1 by field.
    rewrite ln_1. field. pose proof ln10_pos. lra. }
  split; [exact H0|]. rewrite <- H0 at 1. apply melToHz_hzToMel. lra.
Qed.

(** ** The magnitude spectrum *)

Lemma nth_map_seq_total (f : nat -> R) (n i : nat) :
  nth i (map f (seq 0 n)) 0 = if (i <? n)%nat then f i else 0.
Proof.
  destruct (Nat.ltb_spec i n) as [Hi|Hi].
  - now apply nth_map_seq.
  - apply nth_overflow. now rewrite length_map, length_seq.
Qed.

Lemma sample_or_zero (samples : list R) (i : nat) :
  (if (i <? length samples)%nat then nth i samples 0 else 0) = nth i samples 0.
Proof.
  destruct (Nat.ltb_spec i (length samples)) as [Hi|Hi]; [reflexivity|].
  symmetry. now apply nth_overflow.
Qed.

Lemma hann_bounds (c : Constants) (i : nat) : 0 <= hann c i <= 1.
Proof.
  unfold hann.
  pose proof (COS_bound (2 * PI * INR i / (INR (FFT_SIZE c) - 1))). lra.
Qed.

Section Spectrum.

Variable c : Constants.

(** The spectrum reads the first [FFT_SIZE] samples, a missing one as 0. *)
Lemma spectrum_ext (s1 s2 : list R) :
  (forall i, (i < FFT_SIZE c)%nat -> nth i s1 0 = nth i s2 0) ->
  computeMagnitudeSpectrum c s1 = computeMagnitudeSpectrum c s2.
Proof.
  intros H. unfold computeMagnitudeSpectrum.
  assert (Hw : map (fun i => (if (i <? length s1)%nat then nth i s1 0 else 0) * hann c i)
                   (seq 0 (FFT_SIZE c))
               = map (fun i => (if (i <? length s2)%nat then nth i s2 0 else 0) * hann c i)
                     (seq 0 (FFT_SIZE c))).
  { apply map_ext_in. intros i Hi. apply in_seq in Hi.
    rewrite !sample_or_zero, H by lia. reflexivity. }
  now rewrite Hw.
Qed.

(** X2.  [computeMagnitudeSpectrum] returns [FFT_SIZE / 2] magnitudes, none
    of them negative, and reads only the first [FFT_SIZE] samples of its
    window, a missing sample as 0: zero-padding a window or cutting it after
    [FFT_SIZE] samples leaves the spectrum unchanged. *)
Theorem spectrum_shape_and_padding (samples : list R) :
  length (computeMagnitudeSpectrum c samples) = (FFT_SIZE c / 2)%nat
  /\ Forall (fun m => 0 <= m) (computeMagnitudeSpectrum c samples)
  /\ (forall k, computeMagnitudeSpectrum c (samples ++ repeat 0 k)
                = computeMagnitudeSpectrum c samples)
  /\ computeMagnitudeSpectrum c (firstn (FFT_SIZE c) samples)
     = computeMagnitudeSpectrum c samples
  /\ (forall other,
        firstn (FFT_SIZE c) other = firstn (FFT_SIZE c) samples ->
        computeMagnitudeSpectrum c other = computeMagnitudeSpectrum c samples).
Proof.
  split; [unfold computeMagnitudeSpectrum; now rewrite length_map, length_seq|].
  split.
  { unfold computeMagnitudeSpectrum. apply Forall_map, Forall_forall.
    intros k _. apply sqrt_pos. }
  assert (Hcut : forall s i, (i < FFT_SIZE c)%nat ->
                             nth i (firstn (FFT_SIZE c) s) 0 = nth i s 0).
  { intros s i Hi. rewrite <- (firstn_skipn (FFT_SIZE c) s) at 2.
    destruct (Nat.lt_ge_cases i (length (firstn (FFT_SIZE c) s))) as [Hin|Hout].
    - now rewrite app_nth1.
    - rewrite (nth_overflow (firstn (FFT_SIZE c) s)) by assumption.
      rewrite app_nth2 by assumption.
      rewrite length_firstn in Hout.
      rewrite nth_overflow; [reflexivity|]. rewrite length_skipn. lia. }
  split.
  { intros k. apply spectrum_ext. intros i _.
    destruct (Nat.lt_ge_cases i (length samples)) as [Hin|Hout].
    - now rewrite app_nth1.
    - rewrite app_nth2, nth_repeat by assumption.
      symmetry. now apply nth_overflow. }
  split.
  { apply spectrum_ext. intros i Hi. now apply Hcut. }
  intros other Heq. apply spectrum_ext. intros i Hi.
  rewrite <- (Hcut other i Hi), <- (Hcut samples i Hi). now rewrite Heq.
Qed.

Lemma dft_skips_quiet (windowed : list R) (angleFactor : R) (ns : list nat)
  (acc : R * R) :
  (forall n, Rabs (nth n windowed 0) <= 1e-6) ->
  fold_left (dftStep windowed angleFactor) ns acc = acc.
Proof.
  intros Hq. revert acc. induction ns as [|n ns IH]; intros acc; cbn [fold_left].
  - reflexivity.
  - unfold dftStep at 2.
    destruct (Rgt_dec (Rabs (nth n windowed 0)) 1e-6) as [Hgt|_].
    + specialize (Hq n). unfold Rgt in Hgt. lra.
    + apply IH.
Qed.

Lemma quiet_spectrum (samples : list R) :
  Forall (fun x => Rabs x <= 1e-6) samples ->
  Forall (fun m => m = 0) (computeMagnitudeSpectrum c samples).
Proof.
  intros Hq. unfold computeMagnitudeSpectrum.
  apply Forall_map, Forall_forall. intros k _.
  rewrite dft_skips_quiet.
  - cbn [fst snd]. replace (0 * 0 + 0 * 0) with 0 by ring. apply sqrt_0.
  - intros n. rewrite nth_map_seq_total.
    destruct (n <? FFT_SIZE c)%nat; [|rewrite Rabs_R0; lra].
    rewrite sample_or_zero, Rabs_mult.
    assert (Hx : Rabs (nth n samples 0) <= 1e-6).
    { destruct (Nat.lt_ge_cases n (length samples)) as [Hin|Hout].
      - rewrite Forall_forall in Hq. apply Hq. now apply nth_In.
      - rewrite nth_overflow by assumption. rewrite Rabs_R0. lra. }
    pose proof (hann_bounds c n) as Hw.
    rewrite (Rabs_right (hann c n)) by lra.
    pose proof (Rabs_pos (nth n samples 0)). nra.
Qed.

(** X3.  A window whose samples are all at most [1e-6] in absolute value
    has an all-zero spectrum: every windowed sample is skipped by the
    [Math.abs(x) > 1e-6] test of the transform. *)
Theorem quiet_window_has_zero_spectrum (samples : list R) :
  Forall (fun x => Rabs x <= 1e-6) samples ->
  computeMagnitudeSpectrum c samples = repeat 0 (FFT_SIZE c / 2).
Proof.
  intros Hq.
  pose proof (quiet_spectrum samples Hq) as Hz.
  rewrite (zeros_are_repeat _ Hz). f_equal.
  unfold computeMagnitudeSpectrum. now rewrite length_map, length_seq.
Qed.

End Spectrum.

Lemma quiet_window_has_zero_spectrum_witness :
  Forall (fun x => Rabs x <= 1e-6) [1e-6; -1e-6; 0]
  /\ computeMagnitudeSpectrum sampleConstants [1e-6; -1e-6; 0]
     = repeat 0 (FFT_SIZE sampleConstants / 2).
Proof.
  assert (H : Forall (fun x => Rabs x <= 1e-6) [1e-6; -1e-6; 0]).
  { apply Forall_cons; [rewrite Rabs_right; lra|].
    apply Forall_cons; [rewrite Rabs_left; lra|].
    apply Forall_cons; [rewrite Rabs_R0; lra|apply Forall_nil]. }
  split; [exact H|].
  exact (quiet_window_has_zero_spectrum sampleConstants _ H).
Defined.
